(** * The watch-cache ordered store, indexer and continuation cache

    A shallow embedding of package [cacher]'s [threadedStoreIndexer],
    [btreeStore], [indexer] and [continueCache], together with the
    properties of prefix listing, pagination, index maintenance and
    snapshot caching that the surrounding API server relies on.

    Conventions of the embedding:
    - a Go [string] is a Rocq [string] (a sequence of bytes); [<] on Go
      strings is byte-wise lexicographic, which is [String.ltb];
    - a [*btree.BTree] is a location in a heap of trees, so that two stores
      holding the same pointer alias and [Clone] is an allocation;
    - Go maps that are never shared ([indices], [cache]) are [gmap]s held by
      value;
    - [int] and [uint64] values are only ever compared, never computed with,
      so they are [Z] and [N] without wrap-around. *)

From Stdlib Require Import String Ascii NArith ZArith List Bool Sorted Lia.
From stdpp Require Import gmap strings list fin_maps.

(** ** Go strings: byte-wise order and [strings.HasPrefix] *)

Module GoString.
Local Open Scope string_scope.

Definition lt (a b : string) : bool := String.ltb a b.

(** [strings.HasPrefix(s, prefix)] *)
Definition HasPrefix (s prefix : string) : bool := String.prefix prefix s.

(** the one-byte string holding a null byte *)
Definition nul : string := String Ascii.zero EmptyString.

End GoString.

(** ** The ordered tree

    Modelled from the spec: [github.com/google/btree] is a dependency of the
    package and its source is not among the files at hand.  The spec asks of
    it a balanced ordered map with point lookup, insert-or-replace, delete,
    ascending scan from a key, and a clone that is independent of the
    original.  Its [BTree] is modelled by the ascending list of its items,
    and each method by what the library documents for it.  Two items are the
    same item to the tree when neither is [Less] than the other. *)

Module btree.

(** [btree.Item]: anything with a [Less] method *)
Class Item (A : Type) := Less : A -> A -> bool.

(** what the library requires of [Less]: a strict weak ordering *)
Class ItemOrder (A : Type) `{Item A} := {
  Less_irrefl : forall a, Less a a = false;
  Less_trans : forall a b c, Less a b = true -> Less b c = true -> Less a c = true;
  Less_ge_trans : forall a b c, Less b a = false -> Less c b = false -> Less c a = false
}.

Section Tree.
Context {A : Type} `{Item A}.

Definition BTree := list A.

Definition same (a b : A) : bool := negb (Less a b) && negb (Less b a).

(** the representation invariant: strictly ascending *)
Definition wf (t : BTree) : Prop := StronglySorted (fun a b => Less a b = true) t.

Definition New : BTree := [].

Definition Len (t : BTree) : nat := length t.

(** [ReplaceOrInsert] adds the item, replacing and returning the item
    that is the same to the tree, if there is one *)
Fixpoint ReplaceOrInsert (t : BTree) (item : A) : BTree * option A :=
  match t with
  | [] => ([item], None)
  | x :: t' =>
      if Less x item then
        let '(t'', old) := ReplaceOrInsert t' item in (x :: t'', old)
      else if Less item x then (item :: t, None)
      else (item :: t', Some x)
  end.

(** [Delete] removes the item that is the same as the argument and
    returns it, or returns nil *)
Fixpoint Delete (t : BTree) (item : A) : BTree * option A :=
  match t with
  | [] => ([], None)
  | x :: t' =>
      if Less x item then
        let '(t'', old) := Delete t' item in (x :: t'', old)
      else if Less item x then (t, None)
      else (t', Some x)
  end.

Definition Get (t : BTree) (key : A) : option A := find (same key) t.

Definition Min (t : BTree) : option A := head t.

Definition DeleteMin (t : BTree) : BTree * option A := (tail t, head t).

Definition Clear (t : BTree) : BTree := [].

(** An [ItemIterator] is a closure returning whether to go on; the
    variables it captures are the state [St] it transforms. *)
Fixpoint iterate {St : Type} (iterator : A -> St -> St * bool)
    (items : list A) (st : St) : St :=
  match items with
  | [] => st
  | i :: rest =>
      let '(st', continue) := iterator i st in
      if continue then iterate iterator rest st' else st'
  end.

(** [Ascend]: every item, first to last *)
Definition Ascend {St} (t : BTree) (iterator : A -> St -> St * bool) : St -> St :=
  iterate iterator t.

(** [AscendGreaterOrEqual]: every item in [[pivot, last]] *)
Definition AscendGreaterOrEqual {St} (t : BTree) (pivot : A)
    (iterator : A -> St -> St * bool) : St -> St :=
  iterate iterator (List.filter (fun i => negb (Less i pivot)) t).

(** [DescendLessOrEqual]: every item in [[pivot, first]], downwards *)
Definition DescendLessOrEqual {St} (t : BTree) (pivot : A)
    (iterator : A -> St -> St * bool) : St -> St :=
  iterate iterator (reverse (List.filter (fun i => negb (Less pivot i)) t)).

End Tree.

Arguments BTree A : clear implicits.

End btree.

(** ** Package [cacher] *)

Module cacher.
Import btree.

(** *** Values *)

(** [runtime.Object] is opaque to the store; a byte string stands for it. *)
Definition runtimeObject : Type := string.

(** Modelled from the spec: the declaration of [storeElement] and its
    [Less] method are not among the files at hand.  The element has a
    unique string [Key] and the [Object] it represents, and the tree
    orders elements by raw byte comparison of their keys. *)
Record storeElement : Type := {
  Key : string;
  Object : option runtimeObject
}.

#[global] Instance storeElement_eq_dec : EqDecision storeElement.
Proof. solve_decision. Defined.

#[global] Instance storeElement_Less : Item storeElement :=
  fun t than => GoString.lt (Key t) (Key than).

(** An [interface{}] argument: nil, a non-nil [*storeElement], or a value
    of some other dynamic type (of which only a description is kept). *)
Inductive any : Type :=
| nilAny
| elemAny (e : storeElement)
| otherAny (description : string).

(** The errors the package builds with [fmt.Errorf], by format string. *)
Inductive error : Type :=
| errObjNil                                  (* "obj cannot be nil" *)
| errNotStoreElement (obj : any)             (* "obj not a storeElement: %#v" *)
| errIsNotStoreElement                       (* "obj is not a storeElement" *)
| errNoIndex (indexName : string)            (* "index with name %s does not exist" *)
| errIndexEntry (key name : string) (cause : error)
                                             (* "unable to calculate an index entry ..." *)
| errIndexFunc (message : string).           (* whatever an IndexFunc returns *)

(** *** The heap of trees

    [btreeStore] holds a [*btree.BTree].  Stores holding the same location
    share one tree; [tree.Clone()] yields a tree at a new location that
    starts with the same items and is independent afterwards (the library
    copies nodes on write). *)

Definition loc : Type := positive.

Abbreviation heap := (gmap positive (list storeElement)).

(** the tree at a location; locations in use are always allocated *)
Definition load (h : heap) (l : loc) : BTree storeElement := default [] (h !! l).

Definition alloc (h : heap) (t : BTree storeElement) : heap * loc :=
  let l := fresh (dom h) in (<[l := t]> h, l).

(** *** btreeStore *)

Record btreeStore : Type := { tree : loc }.

Definition newBtreeStore (degree : Z) (h : heap) : heap * btreeStore :=
  let '(h', l) := alloc h New in (h', {| tree := l |}).

Definition addOrUpdateElem (s : btreeStore) (storeElem : storeElement) (h : heap)
    : heap * option storeElement :=
  let '(t, oldObj) := ReplaceOrInsert (load h (tree s)) storeElem in
  (<[tree s := t]> h, oldObj).

Definition deleteElem (s : btreeStore) (storeElem : storeElement) (h : heap)
    : heap * option storeElement :=
  let '(t, oldObj) := Delete (load h (tree s)) storeElem in
  (<[tree s := t]> h, oldObj).

Module Store.

Definition Add (s : btreeStore) (obj : any) (h : heap) : heap * option error :=
  match obj with
  | nilAny => (h, Some errObjNil)
  | elemAny storeElem => (fst (addOrUpdateElem s storeElem h), None)
  | otherAny _ => (h, Some (errNotStoreElement obj))
  end.

Definition Update (s : btreeStore) (obj : any) (h : heap) : heap * option error :=
  match obj with
  | nilAny => (h, Some errObjNil)
  | elemAny storeElem => (fst (addOrUpdateElem s storeElem h), None)
  | otherAny _ => (h, Some (errNotStoreElement obj))
  end.

Definition Delete (s : btreeStore) (obj : any) (h : heap) : heap * option error :=
  match obj with
  | nilAny => (h, Some errObjNil)
  | elemAny storeElem => (fst (deleteElem s storeElem h), None)
  | otherAny _ => (h, Some (errNotStoreElement obj))
  end.

Definition List (s : btreeStore) (h : heap) : list storeElement :=
  Ascend (load h (tree s)) (fun i items => (items ++ [i], true)) [].

Definition ListKeys (s : btreeStore) (h : heap) : list string :=
  Ascend (load h (tree s)) (fun i items => (items ++ [Key i], true)) [].

Definition Get (s : btreeStore) (obj : any) (h : heap)
    : option storeElement * bool * option error :=
  match obj with
  | elemAny storeElem =>
      match btree.Get (load h (tree s)) storeElem with
      | None => (None, false, None)
      | Some item => (Some item, true, None)
      end
  | _ => (None, false, Some errIsNotStoreElement)
  end.

Definition getByKey (s : btreeStore) (key : string) (h : heap)
    : option storeElement * bool * option error :=
  let keyElement := {| Key := key; Object := None |} in
  let item := btree.Get (load h (tree s)) keyElement in
  (item, bool_decide (item <> None), None).

Definition GetByKey (s : btreeStore) (key : string) (h : heap) :=
  getByKey s key h.

(** the range loop of [Replace], after the tree has been cleared *)
Fixpoint Replace_loop (s : btreeStore) (objs : list any) (h : heap)
    : heap * option error :=
  match objs with
  | [] => (h, None)
  | obj :: rest =>
      match obj with
      | elemAny storeElem => Replace_loop s rest (fst (addOrUpdateElem s storeElem h))
      | _ => (h, Some (errNotStoreElement obj))
      end
  end.

Definition Replace (s : btreeStore) (objs : list any) (resourceVersion : string)
    (h : heap) : heap * option error :=
  Replace_loop s objs (<[tree s := Clear (load h (tree s))]> h).

Definition ListPrefix (s : btreeStore) (prefix continueKey : string) (limit : Z)
    (h : heap) : list storeElement * bool :=
  if (limit <? 0)%Z then ([], false)
  else
    let continueKey := if (continueKey =? "")%string then prefix else continueKey in
    if (limit =? 0)%Z then
      let result :=
        AscendGreaterOrEqual (load h (tree s)) {| Key := continueKey; Object := None |}
          (fun i result =>
             let elementKey := Key i in
             if negb (GoString.HasPrefix elementKey prefix) then (result, false)
             else (result ++ [i], true))
          [] in
      (result, false)
    else
      AscendGreaterOrEqual (load h (tree s)) {| Key := continueKey; Object := None |}
        (fun i '(result, hasMore) =>
           let elementKey := Key i in
           if negb (GoString.HasPrefix elementKey prefix) then ((result, hasMore), false)
           else if (Z.of_nat (length result) <? limit)%Z
                then ((result ++ [i], hasMore), true)
                else ((result, true), false))
        ([], false).

Definition Count (s : btreeStore) (prefix continueKey : string) (h : heap) : Z :=
  let continueKey := if (continueKey =? "")%string then prefix else continueKey in
  AscendGreaterOrEqual (load h (tree s)) {| Key := continueKey; Object := None |}
    (fun i count =>
       let elementKey := Key i in
       if negb (GoString.HasPrefix elementKey prefix) then (count, false)
       else ((count + 1)%Z, true))
    0%Z.

Definition Clone (s : btreeStore) (h : heap) : heap * btreeStore :=
  let '(h', l) := alloc h (load h (tree s)) in (h', {| tree := l |}).

End Store.

(** *** indexer *)

(** [cache.IndexFunc]: the index values of an object, or an error.  The
    package only ever calls it on a non-nil [*storeElement]. *)
Definition IndexFunc : Type := storeElement -> list string + error.

(** one index: index value -> key -> element.  The innermost map holds
    [*storeElement], [None] being the nil pointer. *)
Abbreviation keySet := (gmap string (option storeElement)).
Abbreviation valueIndex := (gmap string (gmap string (option storeElement))).
Abbreviation indicesMap := (gmap string (gmap string (gmap string (option storeElement)))).

Record indexer : Type := {
  indices : indicesMap;
  indexers : gmap string IndexFunc
}.

Definition newIndexer (indexers : gmap string IndexFunc) : indexer :=
  {| indices := ∅; indexers := indexers |}.

Module Indexer.

Definition ByIndex (i : indexer) (indexName indexValue : string)
    : list (option storeElement) * option error :=
  match indexers i !! indexName with
  | None => ([], Some (errNoIndex indexName))
  | Some indexFunc =>
      let index : valueIndex := default ∅ (indices i !! indexName) in
      let set : keySet := default ∅ (index !! indexValue) in
      ((map_to_list set).*2, None)
  end.

Definition add (key value : string) (obj : option storeElement) (index : valueIndex)
    : valueIndex :=
  let set : keySet := default ∅ (index !! value) in
  <[value := <[key := obj]> set]> index.

Definition delete (key value : string) (index : valueIndex) : valueIndex :=
  match index !! value with
  | None => index
  | Some set =>
      let set := base.delete key set in
      if (size set =? 0)%nat then base.delete value index
      else <[value := set]> index
  end.

(** the test of the fast path of [updateElem] *)
Definition unchangedSingleValue (indexValues oldIndexValues : list string) : bool :=
  (length indexValues =? 1)%nat && (length oldIndexValues =? 1)%nat
  && (hd ""%string indexValues =? hd ""%string oldIndexValues)%string.

(** the body of the loop of [updateElem] once both extractions succeeded *)
Definition updateIndex (key : string) (oldIndexValues indexValues : list string)
    (newObj : option storeElement) (index : valueIndex) : valueIndex :=
  if unchangedSingleValue indexValues oldIndexValues then
    add key (hd ""%string indexValues) newObj index
  else
    let index := foldl (fun index value => delete key value index) index oldIndexValues in
    foldl (fun index value => add key value newObj index) index indexValues.

Definition extract (indexFunc : IndexFunc) (obj : option storeElement)
    : list string + error :=
  match obj with
  | Some o => indexFunc o
  | None => inl []
  end.

(** [for name, indexFunc := range i.indexers]; Go visits the entries in
    an unspecified order, the model in the order of [map_to_list]. *)
Fixpoint updateElem_loop (entries : list (string * IndexFunc)) (key : string)
    (oldObj newObj : option storeElement) (indices : indicesMap)
    : indicesMap * option error :=
  match entries with
  | [] => (indices, None)
  | (name, indexFunc) :: rest =>
      match extract indexFunc oldObj with
      | inr err => (indices, Some (errIndexEntry key name err))
      | inl oldIndexValues =>
          match extract indexFunc newObj with
          | inr err => (indices, Some (errIndexEntry key name err))
          | inl indexValues =>
              let index : valueIndex := default ∅ (indices !! name) in
              updateElem_loop rest key oldObj newObj
                (<[name := updateIndex key oldIndexValues indexValues newObj index]>
                   indices)
          end
      end
  end.

Definition updateElem (i : indexer) (key : string)
    (oldObj newObj : option storeElement) : indexer * option error :=
  let '(indices, err) :=
    updateElem_loop (map_to_list (indexers i)) key oldObj newObj (indices i) in
  ({| indices := indices; indexers := indexers i |}, err).

Fixpoint Replace_loop (i : indexer) (objs : list any) : indexer * option error :=
  match objs with
  | [] => (i, None)
  | obj :: rest =>
      match obj with
      | elemAny storeElem =>
          match updateElem i (Key storeElem) None (Some storeElem) with
          | (i', None) => Replace_loop i' rest
          | (i', Some err) => (i', Some err)
          end
      | _ => (i, Some (errNotStoreElement obj))
      end
  end.

Definition Replace (i : indexer) (objs : list any) (resourceVersion : string)
    : indexer * option error :=
  Replace_loop {| indices := ∅; indexers := indexers i |} objs.

End Indexer.

(** *** threadedStoreIndexer

    Every method holds the lock for its whole body, so a method is one
    atomic step on the pair of the heap and the facade; the lock itself is
    not represented. *)

Record threadedStoreIndexer : Type := {
  store : btreeStore;
  indexer_ : indexer
}.

Definition newThreadedBtreeStoreIndexer (indexers : gmap string IndexFunc)
    (degree : Z) (h : heap) : heap * threadedStoreIndexer :=
  let '(h', s) := newBtreeStore degree h in
  (h', {| store := s; indexer_ := newIndexer indexers |}).

Module Facade.

Definition Count (si : threadedStoreIndexer) (prefix continueKey : string) (h : heap) : Z :=
  Store.Count (store si) prefix continueKey h.

Definition Clone (si : threadedStoreIndexer) (h : heap) : heap * btreeStore :=
  Store.Clone (store si) h.

Definition addOrUpdate (si : threadedStoreIndexer) (obj : any) (h : heap)
    : heap * threadedStoreIndexer * option error :=
  match obj with
  | nilAny => (h, si, Some errObjNil)
  | otherAny _ => (h, si, Some (errNotStoreElement obj))
  | elemAny newElem =>
      let '(h', oldElem) := addOrUpdateElem (store si) newElem h in
      let '(i', err) := Indexer.updateElem (indexer_ si) (Key newElem) oldElem (Some newElem) in
      (h', {| store := store si; indexer_ := i' |}, err)
  end.

Definition Add := addOrUpdate.

Definition Update := addOrUpdate.

Definition Delete (si : threadedStoreIndexer) (obj : any) (h : heap)
    : heap * threadedStoreIndexer * option error :=
  match obj with
  | elemAny storeElem =>
      let '(h', oldObj) := deleteElem (store si) storeElem h in
      match oldObj with
      | None => (h', si, None)
      | Some _ =>
          let '(i', err) := Indexer.updateElem (indexer_ si) (Key storeElem) oldObj None in
          (h', {| store := store si; indexer_ := i' |}, err)
      end
  | _ => (h, si, Some (errNotStoreElement obj))
  end.

Definition List (si : threadedStoreIndexer) (h : heap) := Store.List (store si) h.

Definition ListPrefix (si : threadedStoreIndexer) (prefix continueKey : string)
    (limit : Z) (h : heap) := Store.ListPrefix (store si) prefix continueKey limit h.

Definition ListKeys (si : threadedStoreIndexer) (h : heap) := Store.ListKeys (store si) h.

Definition Get (si : threadedStoreIndexer) (obj : any) (h : heap) :=
  Store.Get (store si) obj h.

Definition GetByKey (si : threadedStoreIndexer) (key : string) (h : heap) :=
  Store.GetByKey (store si) key h.

Definition Replace (si : threadedStoreIndexer) (objs : list any)
    (resourceVersion : string) (h : heap)
    : heap * threadedStoreIndexer * option error :=
  match Store.Replace (store si) objs resourceVersion h with
  | (h', Some err) => (h', si, Some err)
  | (h', None) =>
      let '(i', err) := Indexer.Replace (indexer_ si) objs resourceVersion in
      (h', {| store := store si; indexer_ := i' |}, err)
  end.

Definition ByIndex (si : threadedStoreIndexer) (indexName indexValue : string) :=
  Indexer.ByIndex (indexer_ si) indexName indexValue.

End Facade.

(** *** continueCache *)

(** [orderedStore], as far as the cache uses it: something that can be
    cloned into a [btreeStore]. *)
Class orderedStore (T : Type) := Clone : T -> heap -> heap * btreeStore.

#[global] Instance btreeStore_orderedStore : orderedStore btreeStore := Store.Clone.
#[global] Instance threadedStoreIndexer_orderedStore : orderedStore threadedStoreIndexer :=
  Facade.Clone.

(** [type rev uint64] with [r1.Less(r2) = r1 < r2] *)
Definition rev : Type := N.

#[global] Instance rev_Less : Item rev := fun r1 r2 => (r1 <? r2)%N.

Record continueCache : Type := {
  revisions : BTree rev;
  cache : gmap N btreeStore
}.

Definition newContinueCache : continueCache :=
  {| revisions := New; cache := ∅ |}.

Module ContinueCache.

Definition FindEqualOrLower (c : continueCache) (rv : N)
    : option btreeStore * N * bool :=
  match cache c !! rv with
  | Some indexer => (Some indexer, rv, true)
  | None =>
      let '(foundRV, ok) :=
        DescendLessOrEqual (revisions c) rv
          (fun i (_ : N * bool) => ((i, true), false)) (0%N, false) in
      if ok then (cache c !! foundRV, foundRV, bool_decide (is_Some (cache c !! foundRV)))
      else (None, foundRV, ok)
  end.

(** [Set]; the name is a keyword of Rocq *)
Definition Set_ {T} `{orderedStore T} (c : continueCache) (rv : N) (indexer : T)
    (h : heap) : heap * continueCache :=
  match cache c !! rv with
  | Some _ => (h, c)
  | None =>
      let '(h', snapshot) := Clone indexer h in
      (h', {| revisions := fst (ReplaceOrInsert (revisions c) rv);
              cache := <[rv := snapshot]> (cache c) |})
  end.

(** the [for c.revisions.Len() > 0] loop; every turn that does not break
    removes the minimum, so [Len] turns are enough *)
Fixpoint Cleanup_loop (turns : nat) (rv : N) (c : continueCache) : continueCache :=
  match turns with
  | O => c
  | S turns =>
      if (0 <? Len (revisions c))%nat then
        match Min (revisions c) with
        | None => c
        | Some minRV =>
            if (rv <? minRV)%N then c
            else
              Cleanup_loop turns rv
                {| revisions := fst (DeleteMin (revisions c));
                   cache := base.delete minRV (cache c) |}
        end
      else c
  end.

Definition Cleanup (c : continueCache) (rv : N) : continueCache :=
  Cleanup_loop (Len (revisions c)) rv c.

End ContinueCache.

(** *** Callers

    How the watch cache drives the package: a stream of mutations, reads
    against a store, and the pagination loop of a LIST with continuation. *)

Module Client.

Inductive mutation : Type :=
| Add (obj : any)
| Update (obj : any)
| Delete (obj : any)
| Replace (objs : list any) (resourceVersion : string).

(** a mutation applied to a bare [btreeStore] *)
Definition mutate (s : btreeStore) (h : heap) (m : mutation) : heap :=
  match m with
  | Add obj => fst (Store.Add s obj h)
  | Update obj => fst (Store.Update s obj h)
  | Delete obj => fst (Store.Delete s obj h)
  | Replace objs rv => fst (Store.Replace s objs rv h)
  end.

(** a mutation applied through the facade *)
Definition step (st : heap * threadedStoreIndexer) (m : mutation)
    : heap * threadedStoreIndexer :=
  let '(h, si) := st in
  match m with
  | Add obj => fst (Facade.Add si obj h)
  | Update obj => fst (Facade.Update si obj h)
  | Delete obj => fst (Facade.Delete si obj h)
  | Replace objs rv => fst (Facade.Replace si objs rv h)
  end.

Inductive query : Type :=
| Get (obj : any)
| GetByKey (key : string)
| List
| ListKeys
| ListPrefix (prefix continueKey : string) (limit : Z)
| Count (prefix continueKey : string).

Inductive answer : Type :=
| item (it : option storeElement) (exists_ : bool) (err : option error)
| items (l : list storeElement)
| keys (l : list string)
| page (l : list storeElement) (hasMore : bool)
| count (n : Z).

Definition ask (s : btreeStore) (q : query) (h : heap) : answer :=
  match q with
  | Get obj => let '(it, ex, err) := Store.Get s obj h in item it ex err
  | GetByKey key => let '(it, ex, err) := Store.GetByKey s key h in item it ex err
  | List => items (Store.List s h)
  | ListKeys => keys (Store.ListKeys s h)
  | ListPrefix p c l => let '(r, more) := Store.ListPrefix s p c l h in page r more
  | Count p c => count (Store.Count s p c h)
  end.

(** The pagination loop of the spec: call [ListPrefix], and while it
    reports more, call again from the last returned key followed by a
    null byte.  [calls] bounds the number of calls; [None] means the
    bound was hit (or a page reporting more was empty). *)
Fixpoint paginate (calls : nat) (s : btreeStore) (prefix continueKey : string)
    (limit : Z) (h : heap) : option (list (list storeElement)) :=
  match calls with
  | O => None
  | S calls =>
      let '(result, hasMore) := Store.ListPrefix s prefix continueKey limit h in
      if hasMore then
        match last result with
        | Some e =>
            cons result <$>
              paginate calls s prefix (String.append (Key e) GoString.nul) limit h
        | None => None
        end
      else Some [result]
  end.

End Client.

End cacher.

Import btree cacher.

(** ** The listing the spec describes

    Written from the words of the spec, for comparison with
    [Store.ListPrefix]: an ascending scan that starts at [continueKey] (or at
    [prefix] when [continueKey] is empty), stops at the first key that does
    not have [prefix] as a prefix, and collects up to [limit] elements, all
    of them when [limit] is 0. *)

Module Spec.

Fixpoint takeWhile {A} (p : A -> bool) (l : list A) : list A :=
  match l with
  | [] => []
  | x :: l' => if p x then x :: takeWhile p l' else []
  end.

Definition hasPrefix (prefix : string) (e : storeElement) : bool :=
  GoString.HasPrefix (Key e) prefix.

(** the elements at or after [start], ascending *)
Definition from (t : list storeElement) (start : string) : list storeElement :=
  List.filter (fun e => negb (GoString.lt (Key e) start)) t.

Definition start (prefix continueKey : string) : string :=
  if (continueKey =? "")%string then prefix else continueKey.

(** everything the scan can return: the run of prefixed elements it meets *)
Definition matching (t : list storeElement) (prefix continueKey : string)
    : list storeElement :=
  takeWhile (hasPrefix prefix) (from t (start prefix continueKey)).

Definition ListPrefix (t : list storeElement) (prefix continueKey : string)
    (limit : Z) : list storeElement * bool :=
  let m := matching t prefix continueKey in
  if (limit =? 0)%Z then (m, false)
  else (take (Z.to_nat limit) m, (Z.to_nat limit <? length m)%nat).

(** ascending by key *)
Definition ascending (l : list storeElement) : Prop :=
  StronglySorted (fun a b => GoString.lt (Key a) (Key b) = true) l.

End Spec.

(** ** Representation invariants

    What holds of every state the package can reach from its constructors,
    and what the theorems below assume of the states they start from. *)

Module Invariant.

(** the revisions in the ordered set are exactly the keys of the map *)
Definition continueCache_ok (c : continueCache) : Prop :=
  wf (revisions c)
  /\ forall r : N, r ∈ revisions c <-> is_Some (cache c !! r).

(** the element filed under an index value and a key, if any *)
Definition lookup2 (index : valueIndex) (value key : string)
    : option (option storeElement) :=
  index !! value ≫= (.!! key).

(** the values an index function yields for an optional element, none when
    it fails *)
Definition valuesOf (indexFunc : IndexFunc) (obj : option storeElement) : list string :=
  match Indexer.extract indexFunc obj with
  | inl values => values
  | inr _ => []
  end.

(** index functions that never return an error *)
Definition neverFails (indexers : gmap string IndexFunc) : Prop :=
  forall name indexFunc e,
    indexers !! name = Some indexFunc -> exists values, indexFunc e = inl values.

(** an index files exactly the elements of [t], each under its key and
    under each of its index values *)
Definition files (indexFunc : IndexFunc) (t : list storeElement) (index : valueIndex)
    : Prop :=
  forall (value key : string) (p : option storeElement),
    lookup2 index value key = Some p
    <-> exists e, p = Some e /\ e ∈ t /\ Key e = key
                  /\ value ∈ valuesOf indexFunc (Some e).

(** every registered index files exactly the stored elements *)
Definition index_consistent (h : heap) (si : threadedStoreIndexer) : Prop :=
  forall name indexFunc,
    indexers (indexer_ si) !! name = Some indexFunc ->
    files indexFunc (Store.List (store si) h) (default ∅ (indices (indexer_ si) !! name)).

Definition asElem (obj : any) : option storeElement :=
  match obj with
  | elemAny e => Some e
  | _ => None
  end.

(** what the watch cache passes to [Replace]: elements only, no key twice *)
Definition distinctElements (objs : list any) : Prop :=
  Forall (fun obj => is_Some (asElem obj)) objs
  /\ NoDup (Key <$> omap asElem objs).

Definition wellFormed (m : Client.mutation) : Prop :=
  match m with
  | Client.Replace objs _ => distinctElements objs
  | _ => True
  end.

(** the state of a facade built over the index functions [indexers0] *)
Definition facade_ok (indexers0 : gmap string IndexFunc) (h : heap)
    (si : threadedStoreIndexer) : Prop :=
  indexers (indexer_ si) = indexers0
  /\ wf (load h (tree (store si)))
  /\ index_consistent h si.

End Invariant.

(** ** Worked examples *)

Module Examples.

Definition pod (key : string) : storeElement := {| Key := key; Object := None |}.

Definition a1 := pod "/pods/ns1/a".
Definition b1 := pod "/pods/ns1/b".
Definition a2 := pod "/pods/ns2/a".

(** a store holding the three pods of the spec's scenario *)
Definition three : heap * btreeStore :=
  let '(h, s) := newBtreeStore 32 ∅ in
  (foldl (Client.mutate s) h
     [Client.Add (elemAny a2); Client.Add (elemAny a1); Client.Add (elemAny b1)], s).

(** a cache holding one snapshot, of the three-pod store, at revision 5 *)
Definition cached5 : heap * continueCache :=
  ContinueCache.Set_ newContinueCache 5 (snd three) (fst three).

(** two stores in one heap, the first empty and the second holding one pod,
    and a cache on which [Set] is called at revision 5 with the first store
    and then again at revision 5 with the second *)
Definition twice5 : heap * btreeStore * btreeStore * continueCache :=
  let '(h0, sA) := newBtreeStore 32 ∅ in
  let '(h1, sB) := newBtreeStore 32 h0 in
  let h2 := Client.mutate sB h1 (Client.Add (elemAny a1)) in
  let '(h3, c1) := ContinueCache.Set_ newContinueCache 5 sA h2 in
  let '(h4, c2) := ContinueCache.Set_ c1 5 sB h3 in
  (h4, sA, sB, c2).

(** the segments of a key between slashes *)
Fixpoint segments (s current : string) : list string :=
  match s with
  | EmptyString => [current]
  | String c s' =>
      if Ascii.eqb c "/"%char then current :: segments s' ""%string
      else segments s' (String.append current (String c EmptyString))
  end.

(** the index of the spec's scenario: the namespace segment of the key *)
Definition byNamespace : IndexFunc :=
  fun e =>
    match segments (Key e) ""%string with
    | _ :: _ :: ns :: _ => inl [ns]
    | _ => inl []
    end.

Definition namespaceIndexers : gmap string IndexFunc := {[ "namespace"%string := byNamespace ]}.

(** a facade with the namespace index, after adding the three pods *)
Definition indexed : heap * threadedStoreIndexer :=
  foldl Client.step (newThreadedBtreeStoreIndexer namespaceIndexers 32 ∅)
    [Client.Add (elemAny a2); Client.Add (elemAny a1); Client.Add (elemAny b1)].

(** two versions of one pod, and an indexer that files the first *)
Definition v1 : storeElement := {| Key := "/pods/ns1/a"; Object := Some "v1"%string |}.
Definition v2 : storeElement := {| Key := "/pods/ns1/a"; Object := Some "v2"%string |}.

Definition filed_v1 : indexer :=
  fst (Indexer.updateElem (newIndexer namespaceIndexers) (Key v1) None (Some v1)).

(** an index on what the object holds *)
Definition byObject : IndexFunc :=
  fun e =>
    match Object e with
    | Some o => inl [o]
    | None => inl []
    end.

Definition objectIndexers : gmap string IndexFunc := {[ "object"%string := byObject ]}.

(** a facade on which [Replace] is given one key twice, in two versions *)
Definition replaced_twice : heap * threadedStoreIndexer :=
  Client.step (newThreadedBtreeStoreIndexer objectIndexers 32 ∅)
    (Client.Replace [elemAny v1; elemAny v2] ""%string).

End Examples.

(** ** The package at work

    The watch cache that owns these structures is not among the files at
    hand.  What follows drives them the way their own comments describe: a
    live facade that is mutated, a continuation cache that takes a snapshot
    of it at a revision and later forgets revisions. *)

Module System.

(** the last object of [objs] that is an element with key [key] *)
Fixpoint lastByKey (objs : list any) (key : string) : option storeElement :=
  match objs with
  | [] => None
  | obj :: rest =>
      match lastByKey rest key with
      | Some e => Some e
      | None =>
          match obj with
          | elemAny e => if (Key e =? key)%string then Some e else None
          | _ => None
          end
      end
  end.

(** whether an [interface{}] holds a [*storeElement] *)
Definition isElem (obj : any) : bool :=
  match obj with
  | elemAny _ => true
  | _ => false
  end.

(** the objects [Replace] gets through before the first one that is not an
    element *)
Definition accepted (objs : list any) : list any := Spec.takeWhile isElem objs.

(** an index keeps no empty set of keys under a value *)
Definition index_no_empty (index : valueIndex) : Prop :=
  forall (value : string) (set : keySet), index !! value = Some set -> set <> ∅.

(** no index keeps an empty set of keys under a value *)
Definition no_empty_sets (indices : indicesMap) : Prop :=
  forall (name : string) (index : valueIndex) (value : string) (set : keySet),
    indices !! name = Some index -> index !! value = Some set -> set <> ∅.

Inductive event : Type :=
| Mutate (m : Client.mutation)      (* a watch event applied to the live facade *)
| Snapshot (rv : N)                 (* continueCache.Set(rv, live) *)
| Forget (rv : N).                  (* continueCache.Cleanup(rv) *)

Record system : Type := {
  memory : heap;
  live : threadedStoreIndexer;
  snapshots : continueCache
}.

Definition boot (indexers : gmap string IndexFunc) (degree : Z) (h0 : heap) : system :=
  let '(h, si) := newThreadedBtreeStoreIndexer indexers degree h0 in
  {| memory := h; live := si; snapshots := newContinueCache |}.

Definition runEvent (st : system) (ev : event) : system :=
  match ev with
  | Mutate m =>
      let '(h, si) := Client.step (memory st, live st) m in
      {| memory := h; live := si; snapshots := snapshots st |}
  | Snapshot rv =>
      let '(h, c) := ContinueCache.Set_ (snapshots st) rv (live st) (memory st) in
      {| memory := h; live := live st; snapshots := c |}
  | Forget rv =>
      {| memory := memory st; live := live st;
         snapshots := ContinueCache.Cleanup (snapshots st) rv |}
  end.

(** the cache is in order, the live store has its tree, and every cached
    snapshot has a tree of its own *)
Definition sound (st : system) : Prop :=
  Invariant.continueCache_ok (snapshots st)
  /\ is_Some (memory st !! tree (store (live st)))
  /\ forall (r : N) (snapshot : btreeStore),
       cache (snapshots st) !! r = Some snapshot ->
       is_Some (memory st !! tree snapshot)
       /\ tree snapshot <> tree (store (live st)).

(** every [Forget] of the trace is below [rv] *)
Definition keeps (rv : N) (evs : list event) : Prop :=
  Forall (fun ev => match ev with Forget r => (r < rv)%N | _ => True end) evs.

(** a facade whose one index function always fails *)
Definition failing : IndexFunc := fun _ => inr (errIndexFunc "no index"%string).

Definition failingIndexers : gmap string IndexFunc := {[ "broken"%string := failing ]}.

End System.

(** ** Facts about the byte-wise order *)

Module GoStringFacts.
Import GoString.
Local Open Scope string_scope.

Lemma ascii_compare_refl a : Ascii.compare a a = Eq.
Proof. unfold Ascii.compare. apply N.compare_refl. Qed.

Lemma ascii_compare_lt_trans a b c :
  Ascii.compare a b = Lt -> Ascii.compare b c = Lt -> Ascii.compare a c = Lt.
Proof.
  unfold Ascii.compare. rewrite !N.compare_lt_iff. lia.
Qed.

Lemma compare_refl s : String.compare s s = Eq.
Proof.
  induction s as [|a s IH]; simpl; [reflexivity|].
  now rewrite ascii_compare_refl.
Qed.

Lemma compare_lt_trans a : forall b c,
  String.compare a b = Lt -> String.compare b c = Lt -> String.compare a c = Lt.
Proof.
  induction a as [|x a IH]; intros [|y b] [|z c]; simpl; try discriminate; auto.
  destruct (Ascii.compare x y) eqn:Hxy; try discriminate.
  - apply Ascii.compare_eq_iff in Hxy. subst y.
    destruct (Ascii.compare x z) eqn:Hxz; try discriminate; auto.
    apply IH.
  - intros _. destruct (Ascii.compare y z) eqn:Hyz; try discriminate.
    + apply Ascii.compare_eq_iff in Hyz. subst z. now rewrite Hxy.
    + intros _. now rewrite (ascii_compare_lt_trans _ _ _ Hxy Hyz).
Qed.

Lemma lt_irrefl a : lt a a = false.
Proof. unfold lt, String.ltb. now rewrite compare_refl. Qed.

Lemma lt_trans a b c : lt a b = true -> lt b c = true -> lt a c = true.
Proof.
  unfold lt, String.ltb. intros Hab Hbc.
  destruct (String.compare a b) eqn:E1; try discriminate.
  destruct (String.compare b c) eqn:E2; try discriminate.
  now rewrite (compare_lt_trans _ _ _ E1 E2).
Qed.

Lemma lt_total a b : lt a b = false -> lt b a = false -> a = b.
Proof.
  unfold lt, String.ltb. rewrite (String.compare_antisym b a).
  destruct (String.compare a b) eqn:E; simpl; try discriminate.
  intros _ _. now apply String.compare_eq_iff.
Qed.

Lemma lt_asym a b : lt a b = true -> lt b a = false.
Proof.
  intros H. destruct (lt b a) eqn:E; [|reflexivity].
  pose proof (lt_trans _ _ _ H E) as C. rewrite lt_irrefl in C. discriminate.
Qed.

(** [a <= b] and [b <= c] give [a <= c], with [<=] as the negation of [>] *)
Lemma ge_trans a b c : lt b a = false -> lt c b = false -> lt c a = false.
Proof.
  intros H1 H2. destruct (lt c a) eqn:E; [|reflexivity].
  destruct (lt b c) eqn:E3.
  - pose proof (lt_trans _ _ _ E3 E) as C. congruence.
  - pose proof (lt_total _ _ E3 H2). subst. congruence.
Qed.

Lemma lt_le_trans a b c : lt a b = true -> lt c b = false -> lt a c = true.
Proof.
  intros H1 H2. destruct (lt b c) eqn:E.
  - eapply lt_trans; eauto.
  - pose proof (lt_total _ _ E H2). now subst.
Qed.

Lemma le_lt_trans a b c : lt b a = false -> lt b c = true -> lt a c = true.
Proof.
  intros H1 H2. destruct (lt a b) eqn:E.
  - eapply lt_trans; eauto.
  - pose proof (lt_total _ _ E H1). now subst.
Qed.

Lemma HasPrefix_refl s : HasPrefix s s = true.
Proof.
  unfold HasPrefix. induction s as [|a s IH]; simpl; [reflexivity|].
  destruct (ascii_dec a a); [assumption|contradiction].
Qed.

Lemma HasPrefix_empty s : HasPrefix s "" = true.
Proof. unfold HasPrefix. now destruct s. Qed.

(** a key that has prefix [p] is never below [p] *)
Lemma HasPrefix_ge p : forall s, HasPrefix s p = true -> lt s p = false.
Proof.
  unfold HasPrefix, lt, String.ltb.
  induction p as [|a p IH]; intros [|b s]; simpl; try discriminate; auto.
  destruct (ascii_dec a b) as [->|]; [|discriminate].
  intros H. rewrite ascii_compare_refl. now apply IH.
Qed.

(** keys with prefix [p] form an interval that starts at [p] *)
Lemma HasPrefix_convex p : forall x y,
  lt x p = false -> lt y x = false -> HasPrefix y p = true -> HasPrefix x p = true.
Proof.
  unfold HasPrefix, lt, String.ltb.
  induction p as [|a p IH]; intros x y; [now destruct x|].
  destruct x as [|b x]; [simpl; discriminate|].
  destruct y as [|c y]; [simpl; intros _ _; discriminate|].
  simpl. destruct (ascii_dec a c) as [<-|]; [|intros _ _; discriminate].
  rewrite (Ascii.compare_antisym a b).
  destruct (Ascii.compare b a) eqn:Hab; simpl; try discriminate.
  - apply Ascii.compare_eq_iff in Hab. subst b.
    destruct (ascii_dec a a); [|contradiction]. apply IH.
Qed.

Lemma HasPrefix_app p : forall s t, HasPrefix s p = true -> HasPrefix (s ++ t) p = true.
Proof.
  unfold HasPrefix.
  induction p as [|a p IH]; intros s t; [now destruct (s ++ t)|].
  destruct s as [|b s]; simpl; [discriminate|].
  destruct (ascii_dec a b); [apply IH|discriminate].
Qed.

Lemma ascii_compare_zero a : Ascii.compare Ascii.zero a <> Gt.
Proof.
  unfold Ascii.compare. simpl. destruct (N_of_ascii a); discriminate.
Qed.

(** [k ++ "\x00"] is the immediate successor of [k]: nothing lies strictly
    between them *)
Lemma lt_succ k : forall x, lt x (k ++ nul) = negb (lt k x).
Proof.
  unfold lt, String.ltb.
  induction k as [|a k IH]; intros [|b x]; simpl; try reflexivity.
  - rewrite (Ascii.compare_antisym b Ascii.zero).
    pose proof (ascii_compare_zero b) as Hz.
    destruct (Ascii.compare Ascii.zero b) eqn:E; simpl; try reflexivity.
    + now destruct x.
    + contradiction.
  - rewrite (Ascii.compare_antisym a b).
    destruct (Ascii.compare b a) eqn:E; simpl; try reflexivity.
    apply IH.
Qed.

Lemma succ_nonempty k : (k ++ nul =? "") = false.
Proof. now destruct k. Qed.

End GoStringFacts.

(** ** Facts about the tree model *)

#[global] Instance storeElement_order : ItemOrder storeElement.
Proof.
  split; unfold Less, storeElement_Less.
  - intros a. apply GoStringFacts.lt_irrefl.
  - intros a b c. apply GoStringFacts.lt_trans.
  - intros a b c. apply GoStringFacts.ge_trans.
Qed.


#[global] Instance rev_order : ItemOrder rev.
Proof.
  split; unfold Less, rev_Less; intros *; rewrite ?N.ltb_lt, ?N.ltb_ge; lia.
Qed.


Module btreeFacts.

Section TreeFacts.
Context {A : Type} `{ItemOrder A}.
Implicit Types (t : BTree A) (a b x item : A).

Lemma same_sym a b : same a b = same b a.
Proof. unfold same. apply andb_comm. Qed.

Lemma same_refl a : same a a = true.
Proof. unfold same. now rewrite Less_irrefl. Qed.

Lemma Less_not_same a b : Less a b = true -> same a b = false.
Proof. unfold same. now intros ->. Qed.

Lemma wf_nil : wf (@nil A).
Proof. constructor. Qed.

Lemma wf_cons x t : wf (x :: t) <-> wf t /\ Forall (fun y => Less x y = true) t.
Proof.
  split.
  - intros Hs. inversion Hs; subst. now split.
  - intros [? ?]. now constructor.
Qed.

Lemma Less_le_trans a b c : Less a b = true -> Less c b = false -> Less a c = true.
Proof.
  intros Hab Hcb. destruct (Less a c) eqn:E; [reflexivity|].
  pose proof (Less_ge_trans _ _ _ Hcb E). congruence.
Qed.

Lemma Less_asym a b : Less a b = true -> Less b a = false.
Proof.
  intros Hab. destruct (Less b a) eqn:E; [|reflexivity].
  pose proof (Less_trans _ _ _ Hab E) as C. rewrite Less_irrefl in C. discriminate.
Qed.

(** in a well-formed tree, below a head that is not under [item] nothing
    is the same as [item] unless it is the head *)
Lemma wf_tail_above x t item :
  wf (x :: t) -> Less x item = false -> Forall (fun y => Less item y = true) t.
Proof.
  rewrite wf_cons. intros [_ Hall] Hx.
  eapply Forall_impl; [exact Hall|]. simpl. intros y Hxy.
  destruct (Less item y) eqn:E; [reflexivity|].
  pose proof (Less_ge_trans _ _ _ E Hx). congruence.
Qed.

Lemma find_same_above t item :
  Forall (fun y => Less item y = true) t -> find (same item) t = None.
Proof.
  induction 1 as [|y t Hy _ IH]; simpl; [reflexivity|].
  now rewrite (Less_not_same _ _ Hy).
Qed.

Lemma ReplaceOrInsert_old t item :
  wf t -> snd (ReplaceOrInsert t item) = Get t item.
Proof.
  unfold Get. induction t as [|x t IH]; simpl; [reflexivity|]. intros Hwf.
  destruct (Less x item) eqn:Hx.
  - rewrite same_sym, (Less_not_same _ _ Hx).
    apply wf_cons in Hwf as [Hwf _].
    specialize (IH Hwf). destruct (ReplaceOrInsert t item). exact IH.
  - destruct (Less item x) eqn:Hi; simpl.
    + rewrite (Less_not_same _ _ Hi). symmetry. apply find_same_above.
      exact (wf_tail_above _ _ _ Hwf Hx).
    + unfold same. now rewrite Hx, Hi.
Qed.

Lemma Delete_old t item : wf t -> snd (Delete t item) = Get t item.
Proof.
  unfold Get. induction t as [|x t IH]; simpl; [reflexivity|]. intros Hwf.
  destruct (Less x item) eqn:Hx.
  - rewrite same_sym, (Less_not_same _ _ Hx).
    apply wf_cons in Hwf as [Hwf _].
    specialize (IH Hwf). destruct (Delete t item). exact IH.
  - destruct (Less item x) eqn:Hi; simpl.
    + rewrite (Less_not_same _ _ Hi). symmetry. apply find_same_above.
      exact (wf_tail_above _ _ _ Hwf Hx).
    + unfold same. now rewrite Hx, Hi.
Qed.

Lemma elem_of_ReplaceOrInsert t item x :
  wf t ->
  x ∈ fst (ReplaceOrInsert t item) <-> x = item \/ (x ∈ t /\ same x item = false).
Proof.
  induction t as [|y t IH]; simpl; intros Hwf.
  - rewrite list_elem_of_singleton. split; [tauto|].
    intros [?|[Hin _]]; [assumption|]. inversion Hin.
  - destruct (Less y item) eqn:Hy.
    + pose proof Hwf as Hwf'. apply wf_cons in Hwf' as [Hwft _].
      specialize (IH Hwft). destruct (ReplaceOrInsert t item) as [t'' old].
      simpl in *. rewrite !elem_of_cons, IH. split.
      * intros [->|[?|[? ?]]]; auto. right. split; [now left|].
        now apply Less_not_same.
      * intros [?|[[?|?] ?]]; auto.
    + pose proof (wf_tail_above _ _ _ Hwf Hy) as Habove.
      assert (Htail : forall z, z ∈ t -> same z item = false).
      { intros z Hz. rewrite Forall_forall in Habove.
        rewrite same_sym. now apply Less_not_same, Habove. }
      destruct (Less item y) eqn:Hi; simpl; rewrite !elem_of_cons.
      * split.
        -- intros [?|[->|?]];
             [now left
             |right; split; [now left|rewrite same_sym; now apply Less_not_same]
             |right; split; [now right|now apply Htail]].
        -- intros [?|[[?|?] ?]]; auto.
      * split.
        -- intros [?|?]; auto.
        -- intros [?|[[->|?] Hs]]; auto.
           unfold same in Hs. rewrite Hy, Hi in Hs. discriminate.
Qed.

Lemma elem_of_Delete t item x :
  wf t ->
  x ∈ fst (Delete t item) <-> x ∈ t /\ same x item = false.
Proof.
  induction t as [|y t IH]; simpl; intros Hwf.
  - split; [intros Hin; inversion Hin|intros [Hin _]; inversion Hin].
  - destruct (Less y item) eqn:Hy.
    + pose proof Hwf as Hwf'. apply wf_cons in Hwf' as [Hwft _].
      specialize (IH Hwft). destruct (Delete t item) as [t'' old].
      simpl in *. rewrite !elem_of_cons, IH. split.
      * intros [->|[? ?]]; auto. split; [now left|]. now apply Less_not_same.
      * intros [[?|?] ?]; auto.
    + pose proof (wf_tail_above _ _ _ Hwf Hy) as Habove.
      assert (Htail : forall z, z ∈ t -> same z item = false).
      { intros z Hz. rewrite Forall_forall in Habove.
        rewrite same_sym. now apply Less_not_same, Habove. }
      destruct (Less item y) eqn:Hi; simpl; rewrite ?elem_of_cons.
      * split.
        -- intros [->|?];
             [split; [now left|rewrite same_sym; now apply Less_not_same]
             |split; [now right|now apply Htail]].
        -- intros [? _]. assumption.
      * split.
        -- intros Hin. split; [now right|now apply Htail].
        -- intros [[->|?] Hs]; auto.
           unfold same in Hs. rewrite Hy, Hi in Hs. discriminate.
Qed.

Lemma ReplaceOrInsert_wf t item : wf t -> wf (fst (ReplaceOrInsert t item)).
Proof.
  induction t as [|y t IH]; simpl; intros Hwf.
  - apply wf_cons. split; [apply wf_nil|constructor].
  - destruct (Less y item) eqn:Hy.
    + pose proof Hwf as Hwf'. apply wf_cons in Hwf' as [Hwft Hall].
      pose proof (elem_of_ReplaceOrInsert t item) as Hin.
      specialize (IH Hwft). destruct (ReplaceOrInsert t item) as [t'' old].
      simpl in *. apply wf_cons. split; [assumption|].
      apply Forall_forall. intros z Hz.
      apply Hin in Hz as [->|[Hz _]]; [assumption| |assumption].
      rewrite Forall_forall in Hall. now apply Hall.
    + pose proof (wf_tail_above _ _ _ Hwf Hy) as Habove.
      apply wf_cons in Hwf as [Hwft Hall].
      destruct (Less item y) eqn:Hi; simpl; apply wf_cons.
      * split; [now apply wf_cons|]. now constructor.
      * now split.
Qed.

Lemma Delete_wf t item : wf t -> wf (fst (Delete t item)).
Proof.
  induction t as [|y t IH]; simpl; intros Hwf; [assumption|].
  destruct (Less y item) eqn:Hy.
  - pose proof Hwf as Hwf'. apply wf_cons in Hwf' as [Hwft Hall].
    pose proof (elem_of_Delete t item) as Hin.
    specialize (IH Hwft). destruct (Delete t item) as [t'' old].
    simpl in *. apply wf_cons. split; [assumption|].
    apply Forall_forall. intros z Hz.
    apply Hin in Hz as [Hz _]; [|assumption].
    rewrite Forall_forall in Hall. now apply Hall.
  - destruct (Less item y) eqn:Hi; simpl; [assumption|].
    now apply wf_cons in Hwf as [Hwft _].
Qed.

Lemma Delete_absent t item : wf t -> Get t item = None -> fst (Delete t item) = t.
Proof.
  unfold Get. induction t as [|y t IH]; simpl; intros Hwf; [reflexivity|].
  destruct (Less y item) eqn:Hy.
  - rewrite same_sym, (Less_not_same _ _ Hy). intros Hg.
    apply wf_cons in Hwf as [Hwft _]. specialize (IH Hwft Hg).
    destruct (Delete t item). simpl in *. now rewrite IH.
  - destruct (Less item y) eqn:Hi; simpl; [reflexivity|].
    unfold same. rewrite Hy, Hi. discriminate.
Qed.

(** two items of a well-formed tree that are the same to it are equal *)
Lemma wf_same_eq t a b : wf t -> a ∈ t -> b ∈ t -> same a b = true -> a = b.
Proof.
  induction t as [|y t IH]; intros Hwf Ha Hb Hs; [inversion Ha|].
  apply wf_cons in Hwf as [Hwft Hall]. rewrite Forall_forall in Hall.
  apply elem_of_cons in Ha as [->|Ha]; apply elem_of_cons in Hb as [->|Hb]; auto.
  - apply Hall in Hb.
    rewrite (Less_not_same _ _ Hb) in Hs. discriminate.
  - apply Hall in Ha.
    rewrite same_sym, (Less_not_same _ _ Ha) in Hs. discriminate.
Qed.

Lemma Get_Some t key x : wf t -> Get t key = Some x <-> x ∈ t /\ same key x = true.
Proof.
  intros Hwf. unfold Get. split.
  - intros Hf. apply find_some in Hf as [Hin Hs]. split; [|assumption].
    now apply list_elem_of_In.
  - intros [Hin Hs]. destruct (find (same key) t) as [y|] eqn:Hf.
    + apply find_some in Hf as [Hy Hsy]. f_equal.
      apply (wf_same_eq t); auto; [now apply list_elem_of_In|].
      unfold same in *.
      apply andb_true_iff in Hs as [H1 H2]. apply andb_true_iff in Hsy as [H3 H4].
      apply negb_true_iff in H1, H2, H3, H4.
      rewrite (Less_ge_trans _ _ _ H1 H4), (Less_ge_trans _ _ _ H3 H2). reflexivity.
    + apply list_elem_of_In in Hin.
      pose proof (find_none _ _ Hf _ Hin). congruence.
Qed.

End TreeFacts.

End btreeFacts.

Import btreeFacts.

(** ** The scenarios of the spec *)

Example scenario_list :
  Store.List (snd Examples.three) (fst Examples.three)
  = [Examples.a1; Examples.b1; Examples.a2].
Proof. vm_compute. reflexivity. Qed.

Example scenario_page_10 :
  Store.ListPrefix (snd Examples.three) "/pods/ns1/" "" 10 (fst Examples.three)
  = ([Examples.a1; Examples.b1], false).
Proof. vm_compute. reflexivity. Qed.

Example scenario_page_1 :
  Store.ListPrefix (snd Examples.three) "/pods/ns1/" "" 1 (fst Examples.three)
  = ([Examples.a1], true).
Proof. vm_compute. reflexivity. Qed.

Example scenario_page_next :
  Store.ListPrefix (snd Examples.three) "/pods/ns1/" "/pods/ns1/b" 1 (fst Examples.three)
  = ([Examples.b1], false).
Proof. vm_compute. reflexivity. Qed.

Example scenario_paginate :
  Client.paginate 5 (snd Examples.three) "/pods/" "" 2 (fst Examples.three)
  = Some [[Examples.a1; Examples.b1]; [Examples.a2]].
Proof. vm_compute. reflexivity. Qed.

(** ** Iterators of the store *)

Section Iterators.
Context {A : Type} (P : A -> bool).

Lemma iterate_collect (u : list A) : forall acc,
  iterate (fun i result => if negb (P i) then (result, false) else (result ++ [i], true))
    u acc
  = acc ++ Spec.takeWhile P u.
Proof.
  induction u as [|i u IH]; intros acc; simpl.
  - now rewrite app_nil_r.
  - destruct (P i); simpl.
    + rewrite IH, <- app_assoc. reflexivity.
    + now rewrite app_nil_r.
Qed.

Lemma iterate_count (u : list A) : forall n : Z,
  iterate (fun i count => if negb (P i) then (count, false) else ((count + 1)%Z, true))
    u n
  = (n + Z.of_nat (length (Spec.takeWhile P u)))%Z.
Proof.
  induction u as [|i u IH]; intros n; simpl.
  - lia.
  - destruct (P i); simpl.
    + rewrite IH. lia.
    + lia.
Qed.

Lemma iterate_limit (limit : Z) (Hpos : (0 < limit)%Z) (u : list A) : forall acc,
  (length acc <= Z.to_nat limit)%nat ->
  iterate
    (fun i '(result, hasMore) =>
       if negb (P i) then ((result, hasMore), false)
       else if (Z.of_nat (length result) <? limit)%Z
            then ((result ++ [i], hasMore), true)
            else ((result, true), false))
    u (acc, false)
  = (acc ++ take (Z.to_nat limit - length acc) (Spec.takeWhile P u),
     (Z.to_nat limit - length acc <? length (Spec.takeWhile P u))%nat).
Proof.
  induction u as [|i u IH]; intros acc Hlen; simpl.
  - rewrite take_nil, app_nil_r. reflexivity.
  - destruct (P i); simpl.
    + destruct (Z.of_nat (length acc) <? limit)%Z eqn:Hlt.
      * apply Z.ltb_lt in Hlt.
        rewrite IH by (rewrite length_app; simpl; lia).
        rewrite length_app. simpl.
        replace (Z.to_nat limit - length acc)%nat
          with (S (Z.to_nat limit - (length acc + 1)))%nat by lia.
        simpl. rewrite <- app_assoc. reflexivity.
      * apply Z.ltb_ge in Hlt.
        replace (Z.to_nat limit - length acc)%nat with O by lia.
        simpl. now rewrite app_nil_r.
    + rewrite take_nil, app_nil_r. reflexivity.
Qed.

End Iterators.

Lemma List_load s h : Store.List s h = load h (tree s).
Proof.
  unfold Store.List, Ascend.
  assert (Hgen : forall (u acc : list storeElement),
    iterate (fun i items => (items ++ [i], true)) u acc = acc ++ u).
  { induction u as [|i u IH]; intros acc; simpl.
    - now rewrite app_nil_r.
    - rewrite IH, <- app_assoc. reflexivity. }
  apply Hgen.
Qed.

Lemma ListKeys_load s h : Store.ListKeys s h = Key <$> load h (tree s).
Proof.
  unfold Store.ListKeys, Ascend.
  assert (Hgen : forall (u : list storeElement) (acc : list string),
    iterate (fun i items => (items ++ [Key i], true)) u acc = acc ++ (Key <$> u)).
  { induction u as [|i u IH]; intros acc; simpl.
    - now rewrite app_nil_r.
    - rewrite IH, <- app_assoc. reflexivity. }
  apply Hgen.
Qed.

(** [Store.ListPrefix] computes the listing of the spec, whatever the tree *)
Lemma ListPrefix_refines s prefix continueKey limit h :
  (0 <= limit)%Z ->
  Store.ListPrefix s prefix continueKey limit h
  = Spec.ListPrefix (Store.List s h) prefix continueKey limit.
Proof.
  intros Hlim. rewrite List_load.
  unfold Store.ListPrefix, Spec.ListPrefix, Spec.matching, Spec.from, Spec.start.
  destruct (limit <? 0)%Z eqn:Hneg; [apply Z.ltb_lt in Hneg; lia|].
  unfold AscendGreaterOrEqual, Less, storeElement_Less. simpl.
  destruct (limit =? 0)%Z eqn:Hz.
  - now rewrite (iterate_collect (Spec.hasPrefix prefix)).
  - apply Z.eqb_neq in Hz.
    rewrite (iterate_limit (Spec.hasPrefix prefix)) by (simpl; lia).
    simpl. now rewrite Nat.sub_0_r.
Qed.

Lemma Count_matching s prefix continueKey h :
  Store.Count s prefix continueKey h
  = Z.of_nat (length (Spec.matching (Store.List s h) prefix continueKey)).
Proof.
  rewrite List_load.
  unfold Store.Count, Spec.matching, Spec.from, Spec.start.
  unfold AscendGreaterOrEqual, Less, storeElement_Less. simpl.
  now rewrite (iterate_count (Spec.hasPrefix prefix)).
Qed.

(** ** Ascending lists *)

Section Ascending.
Context {A : Type} `{ItemOrder A}.
Implicit Types (t u : list A) (q : A -> bool).

Lemma wf_sublist t u : t `sublist_of` u -> wf u -> wf t.
Proof.
  induction 1 as [|x t u Hsub IH|x t u Hsub IH]; intros Hwf.
  - apply wf_nil.
  - apply wf_cons in Hwf as [Hwf Hall]. apply wf_cons. split; [auto|].
    rewrite Forall_forall in Hall |- *. intros y Hy.
    apply Hall. eapply elem_of_sublist; eauto.
  - apply wf_cons in Hwf as [Hwf _]. auto.
Qed.

Lemma filter_sublist q t : List.filter q t `sublist_of` t.
Proof.
  induction t as [|x t IH]; simpl; [constructor|].
  destruct (q x); now constructor.
Qed.

Lemma takeWhile_sublist q t : Spec.takeWhile q t `sublist_of` t.
Proof.
  induction t as [|x t IH]; simpl; [constructor|].
  destruct (q x); [now constructor|]. apply sublist_nil_l.
Qed.

Lemma takeWhile_prefix q t : exists rest, t = Spec.takeWhile q t ++ rest.
Proof.
  induction t as [|x t [rest IH]]; simpl; [now exists []|].
  destruct (q x); [|now eexists].
  exists rest. simpl. now f_equal.
Qed.

Lemma filter_all q t : Forall (fun x => q x = true) t -> List.filter q t = t.
Proof.
  induction 1 as [|x t Hx _ IH]; simpl; [reflexivity|].
  now rewrite Hx, IH.
Qed.

Lemma filter_none q t : Forall (fun x => q x = false) t -> List.filter q t = [].
Proof.
  induction 1 as [|x t Hx _ IH]; simpl; [reflexivity|].
  now rewrite Hx.
Qed.

Lemma filter_absorb p q t :
  (forall x, p x = true -> q x = true) ->
  List.filter p (List.filter q t) = List.filter p t.
Proof.
  intros Himp. induction t as [|x t IH]; simpl; [reflexivity|].
  destruct (q x) eqn:Hq; simpl.
  - now rewrite IH.
  - destruct (p x) eqn:Hp; [|assumption].
    rewrite (Himp _ Hp) in Hq. discriminate.
Qed.

(** in an ascending list, what lies above the item at index [i] is what
    follows it *)
Lemma filter_above_drop u : forall i e,
  wf u -> u !! i = Some e -> List.filter (fun x => Less e x) u = drop (S i) u.
Proof.
  induction u as [|x u IH]; intros i e Hwf Hi; [discriminate|].
  apply wf_cons in Hwf as [Hwf Hall].
  destruct i as [|i]; simpl in *.
  - injection Hi as ->. rewrite Less_irrefl, drop_0.
    now apply filter_all.
  - assert (Hxe : Less x e = true).
    { rewrite Forall_forall in Hall. apply Hall.
      eapply list_elem_of_lookup_2; eauto. }
    rewrite (Less_asym _ _ Hxe). now apply IH.
Qed.

(** the first item of an ascending list that is the same as a lower bound of
    the list is its head *)
Lemma lower_bound_head u e :
  wf u -> Forall (fun x => Less x e = false) u -> e ∈ u -> exists rest, u = e :: rest.
Proof.
  intros Hwf Hlow Hin. destruct u as [|x u]; [inversion Hin|].
  apply wf_cons in Hwf as [_ Hall].
  apply elem_of_cons in Hin as [->|Hin]; [now eexists|].
  rewrite Forall_forall in Hall. pose proof (Hall _ Hin) as Hxe.
  apply Forall_cons in Hlow as [Hx _]. congruence.
Qed.

End Ascending.

Section PrefixRuns.
Implicit Types (t u : list storeElement) (p : string).

Lemma from_lower t start :
  Forall (fun x => GoString.lt (Key x) start = false) (Spec.from t start).
Proof.
  apply Forall_forall. intros x Hx. unfold Spec.from in Hx.
  apply list_elem_of_In, filter_In in Hx as [_ Hx].
  now apply negb_true_iff in Hx.
Qed.

Lemma from_wf t start : wf t -> wf (Spec.from t start).
Proof. apply wf_sublist, filter_sublist. Qed.

(** in an ascending list that starts at or after [p], the elements with
    prefix [p] come first *)
Lemma takeWhile_filter_prefix p u :
  wf u -> Forall (fun x => GoString.lt (Key x) p = false) u ->
  Spec.takeWhile (Spec.hasPrefix p) u = List.filter (Spec.hasPrefix p) u.
Proof.
  induction u as [|x u IH]; intros Hwf Hlow; simpl; [reflexivity|].
  apply wf_cons in Hwf as [Hwf Hall].
  apply Forall_cons in Hlow as [Hx Hlow].
  destruct (Spec.hasPrefix p x) eqn:Hp.
  - now rewrite IH.
  - symmetry. apply filter_none.
    rewrite Forall_forall in Hall |- *. intros y Hy.
    destruct (Spec.hasPrefix p y) eqn:Hpy; [|reflexivity].
    unfold Spec.hasPrefix in *.
    pose proof (Hall _ Hy) as Hxy. unfold Less, storeElement_Less in Hxy.
    rewrite (GoStringFacts.HasPrefix_convex p (Key x) (Key y)) in Hp; auto.
    now apply GoStringFacts.lt_asym.
Qed.

(** from a start that is [p] or extends [p], the run the scan meets is all
    of the prefixed elements at or after the start *)
Lemma matching_filter t p start :
  wf t -> GoString.HasPrefix start p = true ->
  Spec.takeWhile (Spec.hasPrefix p) (Spec.from t start)
  = List.filter (fun e => Spec.hasPrefix p e && negb (GoString.lt (Key e) start)) t.
Proof.
  intros Hwf Hstart.
  rewrite takeWhile_filter_prefix.
  - unfold Spec.from. induction t as [|x t IH]; simpl; [reflexivity|].
    apply wf_cons in Hwf as [Hwf _].
    destruct (GoString.lt (Key x) start); simpl;
      destruct (Spec.hasPrefix p x); simpl; rewrite ?IH; auto.
  - now apply from_wf.
  - eapply Forall_impl; [apply from_lower|]. simpl. intros x Hx.
    eapply GoStringFacts.ge_trans; [|exact Hx].
    now apply GoStringFacts.HasPrefix_ge.
Qed.

Lemma matching_all t p :
  wf t -> Spec.matching t p "" = List.filter (Spec.hasPrefix p) t.
Proof.
  intros Hwf. unfold Spec.matching, Spec.start. simpl.
  rewrite matching_filter by (auto using GoStringFacts.HasPrefix_refl).
  apply filter_ext. intros x. unfold Spec.hasPrefix.
  destruct (GoString.HasPrefix (Key x) p) eqn:Hp; simpl; [|reflexivity].
  now rewrite (GoStringFacts.HasPrefix_ge _ _ Hp).
Qed.

End PrefixRuns.

(** ** Prefix listing *)

Lemma ListPrefix_result_sublist s prefix continueKey limit h :
  fst (Store.ListPrefix s prefix continueKey limit h) `sublist_of` Store.List s h.
Proof.
  destruct (Z.ltb_spec limit 0) as [Hneg|Hpos].
  - unfold Store.ListPrefix. apply Z.ltb_lt in Hneg. rewrite Hneg. apply sublist_nil_l.
  - rewrite ListPrefix_refines by assumption.
    unfold Spec.ListPrefix, Spec.matching, Spec.from.
    destruct (limit =? 0)%Z; simpl.
    + etransitivity; [apply takeWhile_sublist|apply filter_sublist].
    + etransitivity; [apply sublist_take|].
      etransitivity; [apply takeWhile_sublist|apply filter_sublist].
Qed.

Lemma takeWhile_Forall {A} (q : A -> bool) (l : list A) :
  Forall (fun x => q x = true) (Spec.takeWhile q l).
Proof.
  induction l as [|x l IH]; simpl; [constructor|].
  destruct (q x) eqn:Hq; now constructor.
Qed.

(** C2: [ListPrefix(p, c, L)] for [L >= 0] is the listing of the spec.  It
    scans the elements at or after [c] (after [p] when [c] is empty) in
    ascending order, keeps the run of elements whose key has prefix [p] and
    stops at the first key without it; it returns the whole run when
    [L = 0] and its first [L] elements otherwise; [hasMore] holds exactly
    when the run goes on beyond the returned page; when [c] is empty or
    extends [p] the run is every prefixed element at or after the start; and
    [ListPrefix(p, "", 0)] is exactly the elements with prefix [p], in
    ascending key order, with [hasMore = false]. *)
Theorem ListPrefix_functional_spec (s : btreeStore) (h : heap)
    (prefix continueKey : string) (limit : Z) :
  wf (load h (tree s)) -> (0 <= limit)%Z ->
  let t := Store.List s h in
  let run := Spec.matching t prefix continueKey in
  let result := fst (Store.ListPrefix s prefix continueKey limit h) in
  let hasMore := snd (Store.ListPrefix s prefix continueKey limit h) in
  Store.ListPrefix s prefix continueKey limit h
    = Spec.ListPrefix t prefix continueKey limit
  /\ (limit = 0%Z -> result = run)
  /\ ((0 < limit)%Z -> result = take (Z.to_nat limit) run
                       /\ (length result <= Z.to_nat limit)%nat)
  /\ (hasMore = true <-> (length result < length run)%nat)
  /\ Forall (fun e => GoString.HasPrefix (Key e) prefix = true) result
  /\ Spec.ascending result
  /\ (continueKey = ""%string \/ GoString.HasPrefix continueKey prefix = true ->
      run = List.filter
              (fun e => GoString.HasPrefix (Key e) prefix
                        && negb (GoString.lt (Key e) (Spec.start prefix continueKey))) t)
  /\ Store.ListPrefix s prefix "" 0 h
       = (List.filter (fun e => GoString.HasPrefix (Key e) prefix) t, false)
  /\ Spec.ascending (List.filter (fun e => GoString.HasPrefix (Key e) prefix) t).
Proof.
  intros Hwf Hlim t run result hasMore.
  assert (Href : Store.ListPrefix s prefix continueKey limit h
                 = Spec.ListPrefix t prefix continueKey limit)
    by now apply ListPrefix_refines.
  assert (Ht : t = load h (tree s)) by apply List_load.
  assert (Hres : result = if (limit =? 0)%Z then run else take (Z.to_nat limit) run).
  { subst result. rewrite Href. unfold Spec.ListPrefix. fold run.
    now destruct (limit =? 0)%Z. }
  assert (Hmore : hasMore = if (limit =? 0)%Z then false
                            else (Z.to_nat limit <? length run)%nat).
  { subst hasMore. rewrite Href. unfold Spec.ListPrefix. fold run.
    now destruct (limit =? 0)%Z. }
  split; [exact Href|].
  split; [intros ->; exact Hres|].
  split.
  { intros Hpos. destruct (Z.eqb_spec limit 0) as [->|_]; [lia|].
    split; [exact Hres|]. rewrite Hres, length_take. lia. }
  split.
  { rewrite Hmore, Hres. destruct (Z.eqb_spec limit 0) as [->|Hnz].
    - split; [discriminate|lia].
    - rewrite Nat.ltb_lt, length_take. lia. }
  split.
  { rewrite Hres. assert (Hrun : Forall (fun e => Spec.hasPrefix prefix e = true) run)
      by apply takeWhile_Forall.
    destruct (limit =? 0)%Z; [exact Hrun|]. now apply Forall_take. }
  split.
  { apply (wf_sublist result (load h (tree s))); [|exact Hwf].
    rewrite <- Ht. apply ListPrefix_result_sublist. }
  split.
  { intros Hc. subst run. unfold Spec.matching. rewrite Ht.
    apply matching_filter; [exact Hwf|].
    unfold Spec.start. destruct Hc as [->|Hc]; simpl.
    - apply GoStringFacts.HasPrefix_refl.
    - destruct (continueKey =? "")%string;
        [apply GoStringFacts.HasPrefix_refl|exact Hc]. }
  split.
  { rewrite ListPrefix_refines by lia. unfold Spec.ListPrefix. simpl.
    fold t. rewrite Ht, matching_all by exact Hwf. reflexivity. }
  apply (wf_sublist _ (load h (tree s))); [|exact Hwf].
  rewrite Ht. apply filter_sublist.
Qed.

Lemma ListPrefix_functional_spec_witness :
  Store.ListPrefix (snd Examples.three) "/pods/ns1/" "" 1 (fst Examples.three)
    = Spec.ListPrefix (Store.List (snd Examples.three) (fst Examples.three))
        "/pods/ns1/" "" 1.
Proof.
  apply (ListPrefix_functional_spec (snd Examples.three) (fst Examples.three)
           "/pods/ns1/" "" 1).
  - vm_compute. repeat constructor.
  - lia.
Defined.

(** C9, as amended: a negative [limit] makes [ListPrefix] return no results
    and [hasMore = false] (there is no error result at all); [Count] takes no
    limit and returns the number of elements [ListPrefix] returns for
    [limit = 0]. *)
Theorem ListPrefix_negative_limit (s : btreeStore) (h : heap)
    (prefix continueKey : string) (limit : Z) :
  (limit < 0)%Z ->
  Store.ListPrefix s prefix continueKey limit h = ([], false)
  /\ Store.Count s prefix continueKey h
     = Z.of_nat (length (fst (Store.ListPrefix s prefix continueKey 0 h))).
Proof.
  intros Hneg. split.
  - unfold Store.ListPrefix. apply Z.ltb_lt in Hneg. now rewrite Hneg.
  - rewrite Count_matching, ListPrefix_refines by lia. reflexivity.
Qed.

Lemma ListPrefix_negative_limit_witness :
  Store.ListPrefix (snd Examples.three) "/pods/" "" (-1) (fst Examples.three) = ([], false)
  /\ Store.Count (snd Examples.three) "/pods/" "" (fst Examples.three)
     = Z.of_nat (length (fst (Store.ListPrefix (snd Examples.three) "/pods/" "" 0
                                (fst Examples.three)))).
Proof.
  apply (ListPrefix_negative_limit (snd Examples.three) (fst Examples.three)
           "/pods/" "" (-1)).
  lia.
Defined.

(** C9 as stated fails: [Count] has no limit to be negative, and on the
    three-pod store it answers 3 where "no results" would be 0. *)
Lemma Count_negative_limit_counterexample :
  ~ (forall limit : Z, (limit < 0)%Z ->
       Store.ListPrefix (snd Examples.three) "/pods/" "" limit (fst Examples.three)
         = ([], false)
       /\ Store.Count (snd Examples.three) "/pods/" "" (fst Examples.three) = 0%Z).
Proof.
  intros Hclaim. destruct (Hclaim (-1)%Z ltac:(lia)) as [_ Hcount].
  vm_compute in Hcount. discriminate.
Qed.

(** C10: when the store holds an element whose key is exactly the prefix
    [p], [ListPrefix(p, "", L)] returns it first for every [L >= 0] and
    [Count(p, "")] counts it; an empty [continueKey] behaves as
    [continueKey = p]. *)
Theorem ListPrefix_prefix_equal_key (s : btreeStore) (h : heap) (e : storeElement)
    (p : string) (L : Z) :
  wf (load h (tree s)) -> e ∈ Store.List s h -> Key e = p -> (0 <= L)%Z ->
  (exists rest, fst (Store.ListPrefix s p "" L h) = e :: rest)
  /\ (exists others,
        fst (Store.ListPrefix s p "" 0 h) = e :: others
        /\ Store.Count s p "" h = (1 + Z.of_nat (length others))%Z)
  /\ Store.ListPrefix s p "" L h = Store.ListPrefix s p p L h
  /\ Store.Count s p "" h = Store.Count s p p h.
Proof.
  intros Hwf Hin Hkey HL.
  assert (Hrun : exists rest, Spec.matching (Store.List s h) p "" = e :: rest).
  { unfold Spec.matching, Spec.start. simpl.
    rewrite List_load in Hin |- *.
    destruct (lower_bound_head (Spec.from (load h (tree s)) p) e) as [rest Hrest].
    - now apply from_wf.
    - unfold Less, storeElement_Less. rewrite Hkey. apply from_lower.
    - unfold Spec.from. apply list_elem_of_In, filter_In. split.
      + now apply list_elem_of_In.
      + now rewrite Hkey, GoStringFacts.lt_irrefl.
    - rewrite Hrest. simpl. unfold Spec.hasPrefix at 1.
      rewrite Hkey, GoStringFacts.HasPrefix_refl. now eexists. }
  destruct Hrun as [rest Hrun].
  split.
  { rewrite ListPrefix_refines by assumption. unfold Spec.ListPrefix.
    rewrite Hrun. destruct (Z.eqb_spec L 0) as [_|Hnz]; simpl; [now eexists|].
    destruct (Z.to_nat L) eqn:HLn; [lia|]. simpl. now eexists. }
  split.
  { exists rest. rewrite Count_matching, ListPrefix_refines by lia.
    unfold Spec.ListPrefix. simpl. rewrite Hrun. split; [reflexivity|].
    simpl length. lia. }
  split.
  - unfold Store.ListPrefix. simpl. now destruct (p =? "")%string eqn:E; [apply String.eqb_eq in E; subst|].
  - unfold Store.Count. simpl. now destruct (p =? "")%string eqn:E; [apply String.eqb_eq in E; subst|].
Qed.

Lemma ListPrefix_prefix_equal_key_witness :
  exists rest,
    fst (Store.ListPrefix (snd Examples.three) "/pods/ns1/a" "" 1 (fst Examples.three))
    = Examples.a1 :: rest.
Proof.
  apply (ListPrefix_prefix_equal_key (snd Examples.three) (fst Examples.three)
           Examples.a1 "/pods/ns1/a" 1).
  - vm_compute. repeat constructor.
  - vm_compute. repeat constructor.
  - reflexivity.
  - lia.
Defined.

(** ** Pagination *)

Lemma takeWhile_drop {A} (q : A -> bool) : forall (l : list A) (n : nat),
  (n <= length (Spec.takeWhile q l))%nat ->
  Spec.takeWhile q (drop n l) = drop n (Spec.takeWhile q l).
Proof.
  induction l as [|x l IH]; intros n Hn.
  - simpl. now rewrite !drop_nil.
  - destruct n as [|n]; [reflexivity|].
    simpl in *. destruct (q x); simpl in *; [|lia].
    apply IH. lia.
Qed.

Lemma from_successor t (e : storeElement) :
  Spec.from t (String.append (Key e) GoString.nul) = List.filter (fun x => Less e x) t.
Proof.
  unfold Spec.from. apply filter_ext. intros x.
  rewrite GoStringFacts.lt_succ. apply negb_involutive.
Qed.

(** continuing after the [n]-th element of a run yields the rest of the run *)
Lemma matching_next t p c n e :
  wf t -> (0 < n)%nat -> (n <= length (Spec.matching t p c))%nat ->
  last (take n (Spec.matching t p c)) = Some e ->
  Spec.matching t p (String.append (Key e) GoString.nul) = drop n (Spec.matching t p c).
Proof.
  intros Hwf Hn Hlen Hlast.
  unfold Spec.matching in *.
  set (st := Spec.start p c) in *.
  set (u := Spec.from t st) in *.
  assert (Hst : Spec.start p (String.append (Key e) GoString.nul)
                = String.append (Key e) GoString.nul).
  { unfold Spec.start. now rewrite GoStringFacts.succ_nonempty. }
  rewrite Hst, from_successor.
  assert (Hu : u !! pred n = Some e).
  { rewrite last_lookup, length_take, Nat.min_l in Hlast by lia.
    rewrite lookup_take_lt in Hlast by lia.
    destruct (takeWhile_prefix (Spec.hasPrefix p) u) as [rest Hrest].
    rewrite Hrest, lookup_app_l by lia. exact Hlast. }
  assert (Hdrop : List.filter (fun x => Less e x) t = drop n u).
  { replace n with (S (pred n)) at 1 by lia.
    rewrite <- (filter_above_drop u (pred n) e); [|now apply from_wf|exact Hu].
    unfold u, Spec.from. symmetry. apply filter_absorb.
    intros x Hx. apply negb_true_iff.
    pose proof (from_lower t st) as Hlow. rewrite Forall_forall in Hlow.
    pose proof (Hlow e (list_elem_of_lookup_2 _ _ _ Hu)) as He.
    unfold Less, storeElement_Less in Hx.
    destruct (GoString.lt (Key x) st) eqn:Hxs; [|reflexivity].
    pose proof (GoStringFacts.lt_trans _ _ _ Hx Hxs). congruence. }
  rewrite Hdrop. now apply takeWhile_drop.
Qed.

Lemma paginate_run s h p (L : Z) :
  wf (load h (tree s)) -> (0 < L)%Z ->
  forall calls c,
    (length (Spec.matching (Store.List s h) p c) < calls)%nat ->
    exists pages,
      Client.paginate calls s p c L h = Some pages
      /\ concat pages = Spec.matching (Store.List s h) p c
      /\ Forall (fun pg => (Z.of_nat (length pg) <= L)%Z) pages.
Proof.
  intros Hwf HL. rewrite List_load.
  induction calls as [|calls IH]; intros c Hlen; [lia|].
  simpl. rewrite ListPrefix_refines by lia. rewrite List_load.
  unfold Spec.ListPrefix.
  destruct (Z.eqb_spec L 0) as [->|_]; [lia|].
  set (m := Spec.matching (load h (tree s)) p c) in *.
  set (n := Z.to_nat L).
  assert (Hpage : (Z.of_nat (length (take n m)) <= L)%Z)
    by (rewrite length_take; lia).
  destruct (Nat.ltb_spec n (length m)) as [Hmore|Hdone].
  - destruct (last (take n m)) as [e|] eqn:Hlast.
    + pose proof (matching_next _ p c n e Hwf ltac:(lia) ltac:(fold m; lia) Hlast)
        as Hnext. fold m in Hnext.
      destruct (IH (String.append (Key e) GoString.nul)) as (pages & Hp & Hcat & Hall).
      { rewrite Hnext, length_drop. lia. }
      exists (take n m :: pages). rewrite Hp. simpl.
      split; [reflexivity|]. split.
      * rewrite Hcat, Hnext. apply take_drop.
      * now constructor.
    + apply last_None in Hlast.
      assert (length (take n m) = 0)%nat by now rewrite Hlast.
      rewrite length_take in *. lia.
  - exists [take n m]. split; [reflexivity|]. simpl.
    rewrite app_nil_r, take_ge by lia.
    split; [reflexivity|]. constructor; [|constructor].
    rewrite take_ge in Hpage by lia. exact Hpage.
Qed.

(** C3: for [L > 0], paging through [ListPrefix(p, continueKey, L)] from an
    empty [continueKey], continuing from the last returned key followed by a
    null byte until [hasMore] is false, ends (within one more call than the
    store has elements) and the pages, each of at most [L] elements, put
    together are the result of [ListPrefix(p, "", 0)]. *)
Theorem pagination_complete (s : btreeStore) (h : heap) (p : string) (L : Z)
    (calls : nat) :
  wf (load h (tree s)) -> (0 < L)%Z -> (length (Store.List s h) < calls)%nat ->
  exists pages,
    Client.paginate calls s p "" L h = Some pages
    /\ concat pages = fst (Store.ListPrefix s p "" 0 h)
    /\ Forall (fun pg => (Z.of_nat (length pg) <= L)%Z) pages.
Proof.
  intros Hwf HL Hcalls.
  destruct (paginate_run s h p L Hwf HL calls "") as (pages & Hp & Hcat & Hall).
  - eapply Nat.le_lt_trans; [|exact Hcalls].
    apply sublist_length. unfold Spec.matching, Spec.from.
    etransitivity; [apply takeWhile_sublist|apply filter_sublist].
  - exists pages. split; [exact Hp|]. split; [|exact Hall].
    rewrite Hcat, ListPrefix_refines by lia. reflexivity.
Qed.

Lemma pagination_complete_witness :
  exists pages,
    Client.paginate 4 (snd Examples.three) "/pods/" "" 2 (fst Examples.three) = Some pages
    /\ concat pages
       = fst (Store.ListPrefix (snd Examples.three) "/pods/" "" 0 (fst Examples.three))
    /\ Forall (fun pg => (Z.of_nat (length pg) <= 2)%Z) pages.
Proof.
  apply (pagination_complete (snd Examples.three) (fst Examples.three) "/pods/" 2 4).
  - vm_compute. repeat constructor.
  - lia.
  - vm_compute. lia.
Defined.

(** ** Invalid input *)

(** C8: [Add], [Update] and [Delete] of the facade, given nil or anything
    that is not a [*storeElement], return an error and leave the heap (so the
    ordered store) and the facade (so every index) exactly as they were. *)
Theorem facade_invalid_input_atomic (si : threadedStoreIndexer) (h : heap) (obj : any) :
  (forall e, obj <> elemAny e) ->
  (exists err, Facade.Add si obj h = (h, si, Some err))
  /\ (exists err, Facade.Update si obj h = (h, si, Some err))
  /\ (exists err, Facade.Delete si obj h = (h, si, Some err)).
Proof.
  intros Hbad. unfold Facade.Add, Facade.Update, Facade.addOrUpdate, Facade.Delete.
  destruct obj as [|e|d]; [| exfalso; now apply (Hbad e) |]; repeat split; eauto.
Qed.

Lemma facade_invalid_input_atomic_witness :
  exists err,
    Facade.Add (snd (newThreadedBtreeStoreIndexer ∅ 32 ∅)) nilAny
      (fst (newThreadedBtreeStoreIndexer ∅ 32 ∅))
    = (fst (newThreadedBtreeStoreIndexer ∅ 32 ∅),
       snd (newThreadedBtreeStoreIndexer ∅ 32 ∅), Some err).
Proof.
  apply (facade_invalid_input_atomic (snd (newThreadedBtreeStoreIndexer ∅ 32 ∅))
           (fst (newThreadedBtreeStoreIndexer ∅ 32 ∅)) nilAny).
  intros e. discriminate.
Defined.

(** ** The heap: who writes where *)

Lemma load_insert_eq (h : heap) l t : load (<[l := t]> h) l = t.
Proof. unfold load. now rewrite lookup_insert_eq. Qed.

Lemma load_insert_ne (h : heap) l l' t : l <> l' -> load (<[l := t]> h) l' = load h l'.
Proof. intros Hne. unfold load. now rewrite lookup_insert_ne. Qed.

Lemma addOrUpdateElem_frame s e (h : heap) l :
  l <> tree s -> fst (addOrUpdateElem s e h) !! l = h !! l.
Proof.
  intros Hne. unfold addOrUpdateElem.
  destruct (ReplaceOrInsert (load h (tree s)) e). simpl.
  now rewrite lookup_insert_ne.
Qed.

Lemma deleteElem_frame s e (h : heap) l :
  l <> tree s -> fst (deleteElem s e h) !! l = h !! l.
Proof.
  intros Hne. unfold deleteElem.
  destruct (Delete (load h (tree s)) e). simpl.
  now rewrite lookup_insert_ne.
Qed.

Lemma Replace_loop_frame s objs l :
  l <> tree s -> forall h : heap, fst (Store.Replace_loop s objs h) !! l = h !! l.
Proof.
  intros Hne. induction objs as [|obj objs IH]; intros h; simpl; [reflexivity|].
  destruct obj; simpl; try reflexivity.
  rewrite IH. now apply addOrUpdateElem_frame.
Qed.

Lemma Replace_frame s objs rv (h : heap) l :
  l <> tree s -> fst (Store.Replace s objs rv h) !! l = h !! l.
Proof.
  intros Hne. unfold Store.Replace.
  rewrite Replace_loop_frame by assumption. now rewrite lookup_insert_ne.
Qed.

(** a mutation of a store writes only the location of its tree *)
Lemma mutate_frame s (h : heap) m l :
  l <> tree s -> Client.mutate s h m !! l = h !! l.
Proof.
  intros Hne. destruct m as [obj|obj|obj|objs rv]; simpl.
  - destruct obj; simpl; auto using addOrUpdateElem_frame.
  - destruct obj; simpl; auto using addOrUpdateElem_frame.
  - destruct obj; simpl; auto using deleteElem_frame.
  - now apply Replace_frame.
Qed.

Lemma mutations_frame s ms l :
  l <> tree s -> forall h : heap, foldl (Client.mutate s) h ms !! l = h !! l.
Proof.
  intros Hne. induction ms as [|m ms IH]; intros h; simpl; [reflexivity|].
  rewrite IH. now apply mutate_frame.
Qed.

(** so does a mutation through the facade, which keeps its store *)
Lemma step_frame h si m l :
  l <> tree (store si) ->
  fst (Client.step (h, si) m) !! l = h !! l
  /\ store (snd (Client.step (h, si) m)) = store si.
Proof.
  intros Hne. destruct m as [obj|obj|obj|objs rv]; simpl.
  - unfold Facade.Add, Facade.addOrUpdate. destruct obj as [|e|d]; simpl; auto.
    pose proof (addOrUpdateElem_frame (store si) e h l Hne) as Hf.
    destruct (addOrUpdateElem (store si) e h) as [h' old].
    destruct (Indexer.updateElem (indexer_ si) (Key e) old (Some e)). simpl in *. auto.
  - unfold Facade.Update, Facade.addOrUpdate. destruct obj as [|e|d]; simpl; auto.
    pose proof (addOrUpdateElem_frame (store si) e h l Hne) as Hf.
    destruct (addOrUpdateElem (store si) e h) as [h' old].
    destruct (Indexer.updateElem (indexer_ si) (Key e) old (Some e)). simpl in *. auto.
  - unfold Facade.Delete. destruct obj as [|e|d]; simpl; auto.
    pose proof (deleteElem_frame (store si) e h l Hne) as Hf.
    destruct (deleteElem (store si) e h) as [h' [old|]]; simpl in *; auto.
    destruct (Indexer.updateElem (indexer_ si) (Key e) (Some old) None). simpl. auto.
  - unfold Facade.Replace.
    pose proof (Replace_frame (store si) objs rv h l Hne) as Hf.
    destruct (Store.Replace (store si) objs rv h) as [h' [err|]]; simpl in *; auto.
    destruct (Indexer.Replace (indexer_ si) objs rv). simpl. auto.
Qed.

Lemma steps_frame ms l : forall h si,
  l <> tree (store si) ->
  fst (foldl Client.step (h, si) ms) !! l = h !! l.
Proof.
  induction ms as [|m ms IH]; intros h si Hne; cbn [foldl]; [reflexivity|].
  destruct (step_frame h si m l Hne) as [Hh Hs].
  destruct (Client.step (h, si) m) as [h' si'] eqn:E. cbn [fst snd] in *.
  rewrite IH by congruence. exact Hh.
Qed.

(** a read of a store looks only at its tree *)
Lemma ask_load s1 s2 (h1 h2 : heap) q :
  load h1 (tree s1) = load h2 (tree s2) -> Client.ask s1 q h1 = Client.ask s2 q h2.
Proof.
  intros Heq. destruct q; simpl;
    unfold Store.Get, Store.GetByKey, Store.getByKey, Store.List, Store.ListKeys,
      Store.ListPrefix, Store.Count; now rewrite Heq.
Qed.

Lemma Clone_spec s (h : heap) :
  let l := fresh (dom h) in
  Store.Clone s h = (<[l := load h (tree s)]> h, {| tree := l |}) /\ h !! l = None.
Proof.
  split; [reflexivity|]. apply not_elem_of_dom, is_fresh.
Qed.

(** ** Snapshots *)

Lemma Clone_isolated s (h h' : heap) :
  is_Some (h !! tree s) ->
  let h1 := fst (Store.Clone s h) in
  let s' := snd (Store.Clone s h) in
  tree s' <> tree s
  /\ load h1 (tree s') = load h (tree s)
  /\ ((forall l, l <> tree s -> h' !! l = h1 !! l) -> load h' (tree s') = load h1 (tree s')).
Proof.
  intros Hlive. destruct (Clone_spec s h) as [Hclone Hfresh].
  rewrite Hclone. simpl.
  assert (Hne : fresh (dom h) <> tree s).
  { intros Heq. rewrite Heq in Hfresh. rewrite Hfresh in Hlive. now destruct Hlive. }
  split; [exact Hne|]. split.
  - apply load_insert_eq.
  - intros Hframe. unfold load. now rewrite Hframe.
Qed.

(** C1: after [S' = S.Clone()], every read through [S'] answers as the same
    read of [S] did when the clone was taken, and keeps answering so
    whatever mutations are applied to [S] afterwards, directly or through
    the facade; and a snapshot that [continueCache.Set(rv, indexer)] stores
    is such a clone: it is what [FindEqualOrLower(rv)] then returns, and
    later mutations of the live indexer do not change what is read through
    it. *)
Theorem snapshot_isolation (s : btreeStore) (h : heap) (ms : list Client.mutation)
    (q : Client.query) :
  is_Some (h !! tree s) ->
  let h1 := fst (Store.Clone s h) in
  let s' := snd (Store.Clone s h) in
  Client.ask s' q h1 = Client.ask s q h
  /\ Client.ask s' q (foldl (Client.mutate s) h1 ms) = Client.ask s' q h1
  /\ (forall si, store si = s ->
        Client.ask s' q (fst (foldl Client.step (h1, si) ms)) = Client.ask s' q h1)
  /\ (forall (c : continueCache) (rv : N) (si : threadedStoreIndexer),
        store si = s -> cache c !! rv = None ->
        let h2 := fst (ContinueCache.Set_ c rv si h) in
        let c' := snd (ContinueCache.Set_ c rv si h) in
        exists snapshot,
          ContinueCache.FindEqualOrLower c' rv = (Some snapshot, rv, true)
          /\ Client.ask snapshot q h2 = Client.ask s q h
          /\ Client.ask snapshot q (fst (foldl Client.step (h2, si) ms))
             = Client.ask s q h).
Proof.
  intros Hlive. cbv zeta.
  pose proof (fun h' => Clone_isolated s h h' Hlive) as Hiso. cbv zeta in Hiso.
  destruct (Store.Clone s h) as [h1 s'] eqn:Hclone. cbn [fst snd] in *.
  destruct (Hiso h1) as (Hne & Hsame & _).
  assert (Hkeep : forall h' : heap,
            (forall l, l <> tree s -> h' !! l = h1 !! l) ->
            load h' (tree s') = load h1 (tree s')) by (intros h'; apply Hiso).
  assert (Hsteps : forall si, store si = s ->
            load (fst (foldl Client.step (h1, si) ms)) (tree s') = load h1 (tree s')).
  { intros si Hsi. unfold load. rewrite steps_frame; [reflexivity|]. now rewrite Hsi. }
  split; [now apply ask_load|].
  split.
  { apply ask_load, Hkeep. intros l Hl. now apply mutations_frame. }
  split.
  { intros si Hsi. now apply ask_load, Hsteps. }
  intros c rv si Hsi Hfree.
  unfold ContinueCache.Set_. rewrite Hfree.
  unfold Clone, threadedStoreIndexer_orderedStore, Facade.Clone.
  rewrite Hsi, Hclone. cbn [fst snd].
  exists s'. split.
  { unfold ContinueCache.FindEqualOrLower. cbn [cache]. now rewrite lookup_insert_eq. }
  split.
  - now apply ask_load.
  - transitivity (Client.ask s' q h1); apply ask_load; auto.
Qed.

Lemma snapshot_isolation_witness :
  Client.ask (snd (Store.Clone (snd Examples.three) (fst Examples.three))) Client.List
    (foldl (Client.mutate (snd Examples.three))
       (fst (Store.Clone (snd Examples.three) (fst Examples.three)))
       [Client.Delete (elemAny Examples.a1); Client.Replace [] ""])
  = Client.ask (snd (Store.Clone (snd Examples.three) (fst Examples.three))) Client.List
      (fst (Store.Clone (snd Examples.three) (fst Examples.three))).
Proof.
  apply (snapshot_isolation (snd Examples.three) (fst Examples.three)
           [Client.Delete (elemAny Examples.a1); Client.Replace [] ""] Client.List).
  vm_compute. eauto.
Defined.

(** the live store does change under those mutations *)
Example snapshot_isolation_live_changes :
  Client.ask (snd Examples.three) Client.List
    (foldl (Client.mutate (snd Examples.three))
       (fst (Store.Clone (snd Examples.three) (fst Examples.three)))
       [Client.Delete (elemAny Examples.a1)])
  = Client.items [Examples.b1; Examples.a2].
Proof. vm_compute. reflexivity. Qed.

(** ** The continuation cache *)

Section Revisions.
Implicit Types (t u : BTree rev) (r rv : N).

Lemma iterate_first (u : list rev) (st : N * bool) :
  iterate (fun i (_ : N * bool) => ((i, true), false)) u st
  = match u with [] => st | i :: _ => (i, true) end.
Proof. now destruct u. Qed.

Lemma wf_last_max u r :
  wf u -> last u = Some r -> forall x, x ∈ u -> (x <= r)%N.
Proof.
  induction u as [|y u IH]; intros Hwf Hlast x Hx; [inversion Hx|].
  apply wf_cons in Hwf as [Hwf Hall]. rewrite Forall_forall in Hall.
  destruct u as [|z u].
  - simpl in Hlast. injection Hlast as <-.
    apply list_elem_of_singleton in Hx. lia.
  - rewrite last_cons_cons in Hlast.
    apply elem_of_cons in Hx as [->|Hx]; [|now apply IH].
    assert (Hr : r ∈ z :: u) by (apply last_Some_elem_of; exact Hlast).
    pose proof (Hall _ Hr) as Hlt. unfold Less, rev_Less in Hlt.
    apply N.ltb_lt in Hlt. lia.
Qed.

(** what the descent of [FindEqualOrLower] finds: the greatest revision of
    the set that is at most [rv] *)
Lemma descend_greatest t rv :
  wf t ->
  match DescendLessOrEqual t rv (fun i (_ : N * bool) => ((i, true), false)) (0%N, false) with
  | (r, true) => r ∈ t /\ (r <= rv)%N /\ forall x, x ∈ t -> (x <= rv)%N -> (x <= r)%N
  | (r, false) => r = 0%N /\ forall x, x ∈ t -> (rv < x)%N
  end.
Proof.
  intros Hwf. unfold DescendLessOrEqual. rewrite iterate_first.
  set (u := List.filter _ t).
  assert (Hu : forall x, x ∈ u <-> x ∈ t /\ (x <= rv)%N).
  { intros x. unfold u. rewrite !list_elem_of_In, filter_In, negb_true_iff.
    unfold Less, rev_Less. now rewrite N.ltb_ge. }
  assert (Hwfu : wf u) by (apply (wf_sublist u t); [apply filter_sublist|exact Hwf]).
  pose proof (head_reverse u) as Hhead.
  destruct (reverse u) as [|r rest]; simpl in Hhead.
  - split; [reflexivity|]. intros x Hx. symmetry in Hhead. apply last_None in Hhead.
    destruct (N.ltb_spec rv x) as [|Hle]; [assumption|].
    assert (Hin : x ∈ u) by now apply Hu.
    rewrite Hhead in Hin. inversion Hin.
  - symmetry in Hhead.
    assert (Hr : r ∈ u) by now apply last_Some_elem_of.
    apply Hu in Hr as [Hrt Hrv]. repeat split; auto.
    intros x Hx Hxrv. apply (wf_last_max u r Hwfu Hhead). now apply Hu.
Qed.

End Revisions.

Lemma FindEqualOrLower_greatest c rv r :
  Invariant.continueCache_ok c ->
  is_Some (cache c !! r) -> (r <= rv)%N ->
  (forall x, is_Some (cache c !! x) -> (x <= rv)%N -> (x <= r)%N) ->
  ContinueCache.FindEqualOrLower c rv = (cache c !! r, r, true).
Proof.
  intros [Hwf Hdom] Hr Hle Hmax. unfold ContinueCache.FindEqualOrLower.
  destruct (cache c !! rv) as [snap|] eqn:Hrv.
  - assert (rv = r) as <-.
    { apply N.le_antisymm; [|assumption]. apply Hmax; [rewrite Hrv; eauto|lia]. }
    now rewrite Hrv.
  - pose proof (descend_greatest (revisions c) rv Hwf) as Hd.
    destruct (DescendLessOrEqual _ _ _ _) as [found [|]].
    + destruct Hd as (Hin & Hfle & Hfmax).
      assert (found = r) as ->.
      { apply N.le_antisymm.
        - apply Hmax; [now apply Hdom|assumption].
        - apply Hfmax; [now apply Hdom|assumption]. }
      rewrite bool_decide_eq_true_2 by assumption. reflexivity.
    + destruct Hd as [_ Habove].
      apply Hdom in Hr. apply Habove in Hr. lia.
Qed.

Lemma FindEqualOrLower_none c rv :
  Invariant.continueCache_ok c ->
  (forall x, is_Some (cache c !! x) -> (rv < x)%N) ->
  ContinueCache.FindEqualOrLower c rv = (None, 0%N, false).
Proof.
  intros [Hwf Hdom] Habove. unfold ContinueCache.FindEqualOrLower.
  destruct (cache c !! rv) as [snap|] eqn:Hrv.
  - assert (rv < rv)%N by (apply Habove; rewrite Hrv; eauto). lia.
  - pose proof (descend_greatest (revisions c) rv Hwf) as Hd.
    destruct (DescendLessOrEqual _ _ _ _) as [found [|]].
    + destruct Hd as (Hin & Hfle & _). apply Hdom, Habove in Hin. lia.
    + destruct Hd as [-> _]. reflexivity.
Qed.

Lemma newContinueCache_ok : Invariant.continueCache_ok newContinueCache.
Proof.
  split; [apply wf_nil|]. intros r. simpl. rewrite lookup_empty. split.
  - intros Hin. inversion Hin.
  - intros [? ?]. discriminate.
Qed.

Lemma Set_ok {T} `{orderedStore T} c rv (indexer : T) (h : heap) :
  Invariant.continueCache_ok c ->
  Invariant.continueCache_ok (snd (ContinueCache.Set_ c rv indexer h)).
Proof.
  intros [Hwf Hdom]. unfold ContinueCache.Set_.
  destruct (cache c !! rv) eqn:Hrv; [now split|].
  destruct (Clone indexer h) as [h' snap]. simpl. split.
  - now apply ReplaceOrInsert_wf.
  - intros r. cbn [revisions cache].
    rewrite elem_of_ReplaceOrInsert by assumption.
    rewrite lookup_insert. case_decide as Hd.
    + subst. split; eauto.
    + rewrite Hdom. split.
      * intros [->|[? _]]; [congruence|assumption].
      * intros Hr. right. split; [assumption|].
        unfold same, Less, rev_Less.
        destruct (N.ltb_spec r rv), (N.ltb_spec rv r); simpl; try reflexivity. lia.
Qed.

Lemma Cleanup_loop_spec rv : forall turns c,
  wf (revisions c) -> (Len (revisions c) <= turns)%nat ->
  revisions (ContinueCache.Cleanup_loop turns rv c)
    = List.filter (fun r => (rv <? r)%N) (revisions c)
  /\ (forall r : N, r ∈ revisions c -> (r <= rv)%N ->
        cache (ContinueCache.Cleanup_loop turns rv c) !! r = None)
  /\ (forall r : N, (r ∈ revisions c -> (rv < r)%N) ->
        cache (ContinueCache.Cleanup_loop turns rv c) !! r = cache c !! r).
Proof.
  induction turns as [|turns IH]; intros [revs m] Hwf Hlen.
  - destruct revs; simpl in Hlen; [|lia]. simpl.
    split; [reflexivity|]. split; [|reflexivity].
    intros r Hin. inversion Hin.
  - destruct revs as [|minRV revs].
    { simpl. split; [reflexivity|]. split; [|reflexivity].
      intros r Hin. inversion Hin. }
    apply wf_cons in Hwf as [Hwf Hall]. rewrite Forall_forall in Hall.
    unfold Less, rev_Less in Hall.
    assert (Hall' : forall x, x ∈ revs -> (minRV < x)%N)
      by (intros x Hx; now apply N.ltb_lt, Hall).
    cbn [ContinueCache.Cleanup_loop revisions cache Len length Min head DeleteMin
         tail fst Nat.ltb Nat.leb List.filter].
    destruct (N.ltb_spec rv minRV) as [Hlt|Hge].
    + cbn [revisions cache]. split.
      * f_equal. symmetry. apply filter_all, Forall_forall. intros x Hx.
        apply N.ltb_lt. specialize (Hall' x Hx). lia.
      * split; [|reflexivity].
        intros r Hin Hle. apply elem_of_cons in Hin as [->|Hin]; [lia|].
        specialize (Hall' r Hin). lia.
    + destruct (IH {| revisions := revs; cache := base.delete minRV m |} Hwf
                  ltac:(simpl in *; lia)) as (Hrevs & Hgone & Hkept).
      cbn [revisions cache] in *. split; [exact Hrevs|]. split.
      * intros r Hin Hle. apply elem_of_cons in Hin as [->|Hin]; [|now apply Hgone].
        rewrite Hkept; [apply lookup_delete_eq|].
        intros Hin. specialize (Hall' minRV Hin). lia.
      * intros r Hr. rewrite Hkept.
        -- apply lookup_delete_ne. intros <-.
           assert (rv < minRV)%N by (apply Hr; now left). lia.
        -- intros Hin. apply Hr. now right.
Qed.

Lemma Cleanup_lookup c rv r :
  Invariant.continueCache_ok c ->
  cache (ContinueCache.Cleanup c rv) !! r
  = if (rv <? r)%N then cache c !! r else None.
Proof.
  intros [Hwf Hdom]. unfold ContinueCache.Cleanup.
  destruct (Cleanup_loop_spec rv (Len (revisions c)) c Hwf (le_n _))
    as (_ & Hgone & Hkept).
  destruct (N.ltb_spec rv r) as [Hlt|Hge].
  - now apply Hkept.
  - destruct (cache c !! r) as [snap|] eqn:Hr.
    + apply Hgone; [|assumption]. apply Hdom. rewrite Hr. eauto.
    + rewrite Hkept; [assumption|]. intros Hin. apply Hdom in Hin.
      rewrite Hr in Hin. now destruct Hin.
Qed.

Lemma Cleanup_ok c rv :
  Invariant.continueCache_ok c -> Invariant.continueCache_ok (ContinueCache.Cleanup c rv).
Proof.
  intros Hok. pose proof Hok as [Hwf Hdom]. split.
  - unfold ContinueCache.Cleanup.
    destruct (Cleanup_loop_spec rv (Len (revisions c)) c Hwf (le_n _)) as (-> & _).
    apply (wf_sublist _ (revisions c)); [apply filter_sublist|exact Hwf].
  - intros r. rewrite Cleanup_lookup by assumption.
    unfold ContinueCache.Cleanup.
    destruct (Cleanup_loop_spec rv (Len (revisions c)) c Hwf (le_n _)) as (-> & _).
    rewrite list_elem_of_In, filter_In, <- list_elem_of_In, Hdom.
    destruct (rv <? r)%N; split.
    + now intros [? _].
    + now split.
    + intros [_ ?]. discriminate.
    + intros [? ?]. discriminate.
Qed.

(** C5, as amended: [Cleanup(rv)] removes every cached revision that is at
    most [rv]: a cached revision [r] survives exactly when [r > rv], with
    its snapshot; the loop ends with the ordered set empty or its minimum
    above [rv]; and afterwards [FindEqualOrLower] of any revision up to [rv]
    finds nothing. *)
Theorem Cleanup_removes_up_to (c : continueCache) (rv : N) :
  Invariant.continueCache_ok c ->
  let c' := ContinueCache.Cleanup c rv in
  (forall r, cache c' !! r = if (rv <? r)%N then cache c !! r else None)
  /\ (forall r, is_Some (cache c !! r) -> (is_Some (cache c' !! r) <-> (rv < r)%N))
  /\ revisions c' = List.filter (fun r => (rv <? r)%N) (revisions c)
  /\ match Min (revisions c') with Some minRV => (rv < minRV)%N | None => True end
  /\ Invariant.continueCache_ok c'
  /\ (forall r, (r <= rv)%N -> ContinueCache.FindEqualOrLower c' r = (None, 0%N, false)).
Proof.
  intros Hok c'. pose proof Hok as [Hwf Hdom].
  assert (Hlook : forall r, cache c' !! r = if (rv <? r)%N then cache c !! r else None)
    by (intros r; now apply Cleanup_lookup).
  assert (Hrevs : revisions c' = List.filter (fun r => (rv <? r)%N) (revisions c)).
  { unfold c', ContinueCache.Cleanup.
    now destruct (Cleanup_loop_spec rv (Len (revisions c)) c Hwf (le_n _)) as (-> & _). }
  assert (Hok' : Invariant.continueCache_ok c') by now apply Cleanup_ok.
  split; [exact Hlook|]. split.
  { intros r Hr. rewrite Hlook. destruct (N.ltb_spec rv r); split; auto; try lia.
    intros [? ?]. discriminate. }
  split; [exact Hrevs|]. split.
  { destruct (Min (revisions c')) as [minRV|] eqn:Hmin; [|exact I].
    unfold Min in Hmin. apply head_Some_elem_of in Hmin. rewrite Hrevs in Hmin.
    apply list_elem_of_In, filter_In in Hmin as [_ Hmin]. now apply N.ltb_lt. }
  split; [exact Hok'|].
  intros r Hr. apply FindEqualOrLower_none; [exact Hok'|].
  intros x Hx. rewrite Hlook in Hx.
  destruct (N.ltb_spec rv x); [lia|]. destruct Hx. discriminate.
Qed.

Lemma Cleanup_removes_up_to_witness :
  cache (ContinueCache.Cleanup (snd Examples.cached5) 5) !! 5%N = None.
Proof.
  exact (proj1 (Cleanup_removes_up_to (snd Examples.cached5) 5
                  (Set_ok _ _ _ _ newContinueCache_ok)) 5%N).
Defined.

(** C5 as stated fails: revision 5 is cached and [5 >= 5], yet [Cleanup(5)]
    removes it. *)
Lemma Cleanup_bound_counterexample :
  ~ (forall r : N, is_Some (cache (snd Examples.cached5) !! r) ->
       (is_Some (cache (ContinueCache.Cleanup (snd Examples.cached5) 5) !! r)
        <-> (5 <= r)%N)).
Proof.
  intros Hclaim.
  assert (Hcached : is_Some (cache (snd Examples.cached5) !! 5%N))
    by (vm_compute; eauto).
  destruct (proj2 (Hclaim 5%N Hcached) ltac:(lia)) as [snap Hsnap].
  vm_compute in Hsnap. discriminate.
Qed.

(** C6, as amended: [FindEqualOrLower(rv)] returns the snapshot cached at
    the greatest cached revision [r <= rv], with [r] and [true], and
    [ok = false] when no cached revision is at most [rv]; after
    [Set(R, idx)] on a cache that does not hold [R] yet,
    [FindEqualOrLower(R)] returns the clone of [idx] that [Set] took, with
    [R] and [true], and so does [FindEqualOrLower(R')] for every [R' > R]
    with no cached revision in [(R, R']]. *)
Theorem FindEqualOrLower_correct (c : continueCache) (rv : N) :
  Invariant.continueCache_ok c ->
  (forall r, is_Some (cache c !! r) -> (r <= rv)%N ->
     (forall x, is_Some (cache c !! x) -> (x <= rv)%N -> (x <= r)%N) ->
     ContinueCache.FindEqualOrLower c rv = (cache c !! r, r, true))
  /\ ((forall x, is_Some (cache c !! x) -> (rv < x)%N) ->
      snd (ContinueCache.FindEqualOrLower c rv) = false)
  /\ (forall (T : Type) (cloner : orderedStore T) (idx : T) (h : heap),
        cache c !! rv = None ->
        let c' := snd (ContinueCache.Set_ c rv idx h) in
        let clone := snd (Clone idx h) in
        ContinueCache.FindEqualOrLower c' rv = (Some clone, rv, true)
        /\ forall rv', (rv < rv')%N ->
             (forall x, is_Some (cache c !! x) -> ~ (rv < x <= rv')%N) ->
             ContinueCache.FindEqualOrLower c' rv' = (Some clone, rv, true)).
Proof.
  intros Hok. split; [intros r; now apply FindEqualOrLower_greatest|].
  split; [intros Habove; now rewrite FindEqualOrLower_none|].
  intros T cloner idx h Hfree c' clone.
  assert (Hok' : Invariant.continueCache_ok c') by now apply Set_ok.
  assert (Hcache : cache c' = <[rv := clone]> (cache c)).
  { unfold c', clone, ContinueCache.Set_. rewrite Hfree.
    now destruct (Clone idx h). }
  assert (Hrv : cache c' !! rv = Some clone) by (rewrite Hcache; apply lookup_insert_eq).
  split.
  - unfold ContinueCache.FindEqualOrLower. now rewrite Hrv.
  - intros rv' Hlt Hgap. rewrite <- Hrv.
    apply FindEqualOrLower_greatest; [exact Hok'|rewrite Hrv; eauto|lia|].
    intros x Hx Hle. rewrite Hcache, lookup_insert in Hx.
    case_decide as Hd; [lia|].
    destruct (N.le_gt_cases x rv) as [|Hgt]; [assumption|].
    exfalso. apply (Hgap x Hx). lia.
Qed.

Lemma FindEqualOrLower_correct_witness :
  ContinueCache.FindEqualOrLower (snd Examples.cached5) 5
  = (Some (snd (Clone (snd Examples.three) (fst Examples.three))), 5%N, true).
Proof.
  pose proof (FindEqualOrLower_correct newContinueCache 5 newContinueCache_ok)
    as (_ & _ & Hset).
  exact (proj1 (Hset btreeStore _ (snd Examples.three) (fst Examples.three) eq_refl)).
Defined.

Example FindEqualOrLower_later :
  ContinueCache.FindEqualOrLower (snd Examples.cached5) 9
  = (cache (snd Examples.cached5) !! 5%N, 5%N, true).
Proof. vm_compute. reflexivity. Qed.

(** C6 as stated fails when [R] is already cached: [Set] then stores
    nothing, and [FindEqualOrLower(R)] returns the earlier snapshot, which
    does not list what [idx] lists. *)
Lemma Set_twice_counterexample :
  let '(h, sA, sB, c) := Examples.twice5 in
  ~ (exists snapshot,
       ContinueCache.FindEqualOrLower c 5 = (Some snapshot, 5%N, true)
       /\ Store.List snapshot h = Store.List sB h).
Proof.
  vm_compute. intros (snapshot & Hfind & Hlist).
  injection Hfind as <-. discriminate.
Qed.

(** ** The indexer *)

Example scenario_by_namespace :
  fst (Facade.ByIndex (snd Examples.indexed) "namespace" "ns1")
    = [Some Examples.a1; Some Examples.b1]
  /\ fst (Facade.ByIndex (snd Examples.indexed) "namespace" "ns2") = [Some Examples.a2]
  /\ fst (Facade.ByIndex
            (snd (Client.step Examples.indexed (Client.Delete (elemAny Examples.a1))))
            "namespace" "ns1") = [Some Examples.b1].
Proof. vm_compute. auto. Qed.

Example replaced_twice_state :
  Facade.List (snd Examples.replaced_twice) (fst Examples.replaced_twice) = [Examples.v2]
  /\ Facade.ByIndex (snd Examples.replaced_twice) "object" "v1" = ([Some Examples.v1], None).
Proof. vm_compute. auto. Qed.

Import Invariant.

Local Set Warnings "-clear-no-such-hyp".

Section IndexFacts.
Implicit Types (index : valueIndex) (key value : string) (obj : option storeElement).

Lemma lookup2_add key value obj index value' key' :
  lookup2 (Indexer.add key value obj index) value' key'
  = if decide (value' = value /\ key' = key) then Some obj else lookup2 index value' key'.
Proof.
  unfold lookup2, Indexer.add.
  destruct (decide (value' = value)) as [->|Hv].
  - rewrite lookup_insert_eq. simpl.
    destruct (decide (key' = key)) as [->|Hk].
    + rewrite lookup_insert_eq. now rewrite decide_True.
    + rewrite lookup_insert_ne by congruence.
      rewrite decide_False by tauto.
      now destruct (index !! value).
  - rewrite lookup_insert_ne by congruence. now rewrite decide_False by tauto.
Qed.

Lemma lookup2_delete key value index value' key' :
  lookup2 (Indexer.delete key value index) value' key'
  = if decide (value' = value /\ key' = key) then None else lookup2 index value' key'.
Proof.
  unfold lookup2, Indexer.delete.
  destruct (index !! value) as [set|] eqn:Hset.
  - destruct (Nat.eqb_spec (size (base.delete key set)) 0) as [Hempty|Hsome].
    + apply map_size_empty_iff in Hempty.
      destruct (decide (value' = value)) as [->|Hv].
      * rewrite lookup_delete_eq. simpl. case_decide; [reflexivity|].
        rewrite Hset. simpl.
        assert (key' <> key) by tauto.
        rewrite <- (lookup_delete_ne set key key') by congruence.
        now rewrite Hempty.
      * rewrite lookup_delete_ne by congruence. now rewrite decide_False by tauto.
    + destruct (decide (value' = value)) as [->|Hv].
      * rewrite lookup_insert_eq, Hset. simpl.
        destruct (decide (key' = key)) as [->|Hk].
        -- rewrite lookup_delete_eq. now rewrite decide_True.
        -- rewrite lookup_delete_ne by congruence. now rewrite decide_False by tauto.
      * rewrite lookup_insert_ne by congruence. now rewrite decide_False by tauto.
  - case_decide as Hd; [|reflexivity]. destruct Hd as [-> ->]. now rewrite Hset.
Qed.

Lemma lookup2_deletes key values : forall index value' key',
  lookup2 (foldl (fun index value => Indexer.delete key value index) index values)
    value' key'
  = if decide (key' = key /\ value' ∈ values) then None else lookup2 index value' key'.
Proof.
  induction values as [|v values IH]; intros index value' key'; simpl.
  - rewrite decide_False; [reflexivity|]. intros [_ Hin]. inversion Hin.
  - rewrite IH, lookup2_delete.
    repeat case_decide; try reflexivity; exfalso; set_solver.
Qed.

Lemma lookup2_adds key obj values : forall index value' key',
  lookup2 (foldl (fun index value => Indexer.add key value obj index) index values)
    value' key'
  = if decide (key' = key /\ value' ∈ values) then Some obj else lookup2 index value' key'.
Proof.
  induction values as [|v values IH]; intros index value' key'; simpl.
  - rewrite decide_False; [reflexivity|]. intros [_ Hin]. inversion Hin.
  - rewrite IH, lookup2_add.
    repeat case_decide; try reflexivity; exfalso; set_solver.
Qed.

Lemma unchangedSingleValue_true indexValues oldIndexValues :
  Indexer.unchangedSingleValue indexValues oldIndexValues = true
  <-> exists value, indexValues = [value] /\ oldIndexValues = [value].
Proof.
  unfold Indexer.unchangedSingleValue. split.
  - intros Hfast. apply andb_true_iff in Hfast as [Hlen Heq].
    apply andb_true_iff in Hlen as [Hn Ho].
    destruct indexValues as [|v [|? ?]]; try discriminate.
    destruct oldIndexValues as [|o [|? ?]]; try discriminate.
    simpl in Heq. apply String.eqb_eq in Heq. subst. now exists o.
  - intros (value & -> & ->). simpl. now rewrite String.eqb_refl.
Qed.

(** what one turn of the loop of [updateElem] leaves under a value and a
    key; the fast path gives the same as the general path would *)
Lemma lookup2_updateIndex key oldIndexValues indexValues obj index value' key' :
  lookup2 (Indexer.updateIndex key oldIndexValues indexValues obj index) value' key'
  = if decide (key' = key) then
      if decide (value' ∈ indexValues) then Some obj
      else if decide (value' ∈ oldIndexValues) then None
      else lookup2 index value' key'
    else lookup2 index value' key'.
Proof.
  unfold Indexer.updateIndex.
  destruct (Indexer.unchangedSingleValue indexValues oldIndexValues) eqn:Hfast.
  - apply unchangedSingleValue_true in Hfast as (value & -> & ->). simpl.
    rewrite lookup2_add.
    repeat case_decide; try reflexivity; exfalso; set_solver.
  - rewrite lookup2_adds, lookup2_deletes.
    repeat case_decide; try reflexivity; exfalso; tauto.
Qed.

End IndexFacts.

Section IndexMaintenance.
Implicit Types (t : BTree storeElement) (e : storeElement) (index : valueIndex).

Lemma same_Key (a b : storeElement) : same a b = true <-> Key a = Key b.
Proof.
  unfold same, Less, storeElement_Less. split.
  - intros Hs. apply andb_true_iff in Hs as [H1 H2].
    apply negb_true_iff in H1, H2. now apply GoStringFacts.lt_total.
  - intros ->. now rewrite GoStringFacts.lt_irrefl.
Qed.

Lemma same_Key_false (a b : storeElement) : same a b = false <-> Key a <> Key b.
Proof.
  rewrite <- same_Key. destruct (same a b); split; congruence.
Qed.

Lemma Get_by_key t e e0 : wf t -> btree.Get t e = Some e0 <-> e0 ∈ t /\ Key e0 = Key e.
Proof.
  intros Hwf. rewrite Get_Some by assumption. rewrite same_Key. split; intros [? ?]; auto.
Qed.

(** One mutation of the element under key [k], seen from one index: the
    tree goes from [t] to [t'], where [old] was the element under [k] and
    [new] is the element under [k] now; the index is updated with the values
    of both. *)
Lemma files_update (f : IndexFunc) t t' index (k : string)
    (old new : option storeElement) :
  files f t index ->
  (forall e0, old = Some e0 <-> e0 ∈ t /\ Key e0 = k) ->
  (forall e0, e0 ∈ t' <-> new = Some e0 \/ (e0 ∈ t /\ Key e0 <> k)) ->
  (forall e0, new = Some e0 -> Key e0 = k) ->
  files f t' (Indexer.updateIndex k (valuesOf f old) (valuesOf f new) new index).
Proof.
  intros Hfiles Hold Ht' Hnew value key p. unfold files in Hfiles.
  rewrite lookup2_updateIndex.
  destruct (decide (key = k)) as [->|Hkey].
  - destruct (decide (value ∈ valuesOf f new)) as [Hv|Hv].
    + destruct new as [e|]; [|inversion Hv]. split.
      * intros [= <-]. exists e. repeat split; auto.
        apply Ht'. now left.
      * intros (e0 & -> & Hin & Hk & _). apply Ht' in Hin as [[= ->]|[_ Hne]];
          [reflexivity|contradiction].
    + assert (Hnone : ~ exists e0, p = Some e0 /\ e0 ∈ t' /\ Key e0 = k
                                  /\ value ∈ valuesOf f (Some e0)).
      { intros (e0 & -> & Hin & Hk & Hval).
        apply Ht' in Hin as [->|[_ Hne]]; [contradiction|contradiction]. }
      destruct (decide (value ∈ valuesOf f old)) as [Ho|Ho].
      * split; [discriminate|]. intros Hex. now destruct Hnone.
      * rewrite Hfiles. split; [|intros Hex; now destruct Hnone].
        intros (e0 & -> & Hin & Hk & Hval). exfalso. apply Ho.
        assert (Hoe : old = Some e0) by now apply Hold.
        now rewrite Hoe.
  - rewrite Hfiles. split; intros (e0 & -> & Hin & Hk & Hval);
      exists e0; repeat split; auto.
    + apply Ht'. right. split; [assumption|congruence].
    + apply Ht' in Hin as [Hn|[? ?]]; [|assumption].
      apply Hnew in Hn. congruence.
Qed.

Lemma extract_valuesOf (f : IndexFunc) (obj : option storeElement) :
  (forall e, exists values, f e = inl values) ->
  Indexer.extract f obj = inl (valuesOf f obj).
Proof.
  intros Hok. unfold valuesOf. destruct obj as [e|]; simpl; [|reflexivity].
  destruct (Hok e) as [values ->]. reflexivity.
Qed.

Lemma updateElem_loop_ok key (oldObj newObj : option storeElement) :
  forall (entries : list (string * IndexFunc)) (m : indicesMap),
    NoDup (entries.*1) ->
    (forall name f, (name, f) ∈ entries ->
       Indexer.extract f oldObj = inl (valuesOf f oldObj)
       /\ Indexer.extract f newObj = inl (valuesOf f newObj)) ->
    exists m' : indicesMap,
      Indexer.updateElem_loop entries key oldObj newObj m = (m', None)
      /\ (forall name f, (name, f) ∈ entries ->
            m' !! name
            = Some (Indexer.updateIndex key (valuesOf f oldObj) (valuesOf f newObj) newObj
                      (default ∅ (m !! name))))
      /\ (forall name, name ∉ entries.*1 -> m' !! name = m !! name).
Proof.
  induction entries as [|[name0 f0] entries IH]; intros m Hnodup Hok.
  - exists m. split; [reflexivity|]. split; [|reflexivity].
    intros name f Hin. inversion Hin.
  - rewrite fmap_cons in Hnodup. apply NoDup_cons in Hnodup as [Hfresh Hnodup].
    simpl in Hfresh.
    destruct (Hok name0 f0 ltac:(now left)) as [Hold Hnew].
    cbn [Indexer.updateElem_loop]. rewrite Hold, Hnew.
    destruct (IH (<[name0 := Indexer.updateIndex key (valuesOf f0 oldObj)
                               (valuesOf f0 newObj) newObj (default ∅ (m !! name0))]> m)
                Hnodup) as (m' & Hrun & Hin & Hout).
    { intros name f Hnf. apply (Hok name). now right. }
    exists m'. split; [exact Hrun|]. split.
    + intros name f Hnf. apply elem_of_cons in Hnf as [[= -> ->]|Hnf].
      * rewrite Hout by assumption. apply lookup_insert_eq.
      * rewrite (Hin _ _ Hnf). rewrite lookup_insert_ne; [reflexivity|].
        intros <-. apply Hfresh. apply list_elem_of_fmap. now exists (name0, f).
    + intros name Hname. rewrite fmap_cons in Hname. simpl in Hname.
      apply not_elem_of_cons in Hname as [Hne Hname].
      rewrite Hout by assumption. now apply lookup_insert_ne.
Qed.

Lemma updateElem_succeeds (i : indexer) key (oldObj newObj : option storeElement) :
  (forall name f, indexers i !! name = Some f ->
     Indexer.extract f oldObj = inl (valuesOf f oldObj)
     /\ Indexer.extract f newObj = inl (valuesOf f newObj)) ->
  exists i',
    Indexer.updateElem i key oldObj newObj = (i', None)
    /\ indexers i' = indexers i
    /\ (forall name f, indexers i !! name = Some f ->
          indices i' !! name
          = Some (Indexer.updateIndex key (valuesOf f oldObj) (valuesOf f newObj) newObj
                    (default ∅ (indices i !! name))))
    /\ (forall name, indexers i !! name = None -> indices i' !! name = indices i !! name).
Proof.
  intros Hok. unfold Indexer.updateElem.
  destruct (updateElem_loop_ok key oldObj newObj (map_to_list (indexers i)) (indices i))
    as (m' & Hrun & Hin & Hout).
  - apply NoDup_fst_map_to_list.
  - intros name f Hnf. apply elem_of_map_to_list in Hnf. now apply (Hok name).
  - rewrite Hrun. eexists. split; [reflexivity|]. simpl. split; [reflexivity|]. split.
    + intros name f Hnf. apply Hin. now apply elem_of_map_to_list.
    + intros name Hname. apply Hout. intros Hin'.
      apply list_elem_of_fmap in Hin' as ([name' f] & -> & Hnf).
      apply elem_of_map_to_list in Hnf. simpl in Hname. congruence.
Qed.

Lemma updateElem_ok (i : indexer) key (oldObj newObj : option storeElement) :
  neverFails (indexers i) ->
  exists i',
    Indexer.updateElem i key oldObj newObj = (i', None)
    /\ indexers i' = indexers i
    /\ (forall name f, indexers i !! name = Some f ->
          indices i' !! name
          = Some (Indexer.updateIndex key (valuesOf f oldObj) (valuesOf f newObj) newObj
                    (default ∅ (indices i !! name))))
    /\ (forall name, indexers i !! name = None -> indices i' !! name = indices i !! name).
Proof.
  intros Hok. apply updateElem_succeeds. intros name f Hname.
  split; apply extract_valuesOf; intros e; eapply Hok; eauto.
Qed.

End IndexMaintenance.

Section FacadeSteps.
Implicit Types (t : BTree storeElement) (e : storeElement) (si : threadedStoreIndexer).

Lemma files_insert (f : IndexFunc) t e (index : valueIndex) :
  wf t -> files f t index ->
  files f (fst (ReplaceOrInsert t e))
    (Indexer.updateIndex (Key e) (valuesOf f (btree.Get t e)) (valuesOf f (Some e))
       (Some e) index).
Proof.
  intros Hwf Hfiles. apply (files_update f t); auto.
  - intros e0. now apply Get_by_key.
  - intros e0. rewrite elem_of_ReplaceOrInsert, same_Key_false by assumption.
    split; (intros [?|?]; [left; congruence|now right]).
  - now intros e0 [= ->].
Qed.

Lemma files_delete (f : IndexFunc) t e (index : valueIndex) :
  wf t -> files f t index ->
  files f (fst (btree.Delete t e))
    (Indexer.updateIndex (Key e) (valuesOf f (btree.Get t e)) (valuesOf f None)
       None index).
Proof.
  intros Hwf Hfiles. apply (files_update f t); auto.
  - intros e0. now apply Get_by_key.
  - intros e0. rewrite elem_of_Delete, same_Key_false by assumption.
    split; [now right|]. now intros [?|?].
  - discriminate.
Qed.

Lemma addOrUpdateElem_load s e (h : heap) :
  wf (load h (tree s)) ->
  load (fst (addOrUpdateElem s e h)) (tree s) = fst (ReplaceOrInsert (load h (tree s)) e)
  /\ snd (addOrUpdateElem s e h) = btree.Get (load h (tree s)) e.
Proof.
  intros Hwf. unfold addOrUpdateElem.
  pose proof (ReplaceOrInsert_old (load h (tree s)) e Hwf) as Hold.
  destruct (ReplaceOrInsert (load h (tree s)) e) as [t' old]. simpl in *.
  split; [apply load_insert_eq|exact Hold].
Qed.

Lemma deleteElem_load s e (h : heap) :
  wf (load h (tree s)) ->
  load (fst (deleteElem s e h)) (tree s) = fst (btree.Delete (load h (tree s)) e)
  /\ snd (deleteElem s e h) = btree.Get (load h (tree s)) e.
Proof.
  intros Hwf. unfold deleteElem.
  pose proof (Delete_old (load h (tree s)) e Hwf) as Hold.
  destruct (btree.Delete (load h (tree s)) e) as [t' old]. simpl in *.
  split; [apply load_insert_eq|exact Hold].
Qed.

(** inserting into the store and filing in the indexer, in step *)
Lemma insert_in_step ixs (h : heap) si e :
  neverFails ixs -> facade_ok ixs h si ->
  exists i',
    Indexer.updateElem (indexer_ si) (Key e) (btree.Get (load h (tree (store si))) e)
      (Some e) = (i', None)
    /\ facade_ok ixs (fst (addOrUpdateElem (store si) e h))
         {| store := store si; indexer_ := i' |}.
Proof.
  intros Hnf (Hixs & Hwf & Hcons).
  destruct (updateElem_ok (indexer_ si) (Key e)
              (btree.Get (load h (tree (store si))) e) (Some e))
    as (i' & Hrun & Hixs' & Hin & _); [now rewrite Hixs|].
  exists i'. split; [exact Hrun|].
  destruct (addOrUpdateElem_load (store si) e h Hwf) as [Hload _].
  split; [simpl; congruence|]. split.
  - simpl. rewrite Hload. now apply ReplaceOrInsert_wf.
  - intros name f Hname. simpl in *. rewrite List_load, Hload.
    rewrite Hixs' in Hname. rewrite (Hin _ _ Hname). simpl.
    apply files_insert; [exact Hwf|].
    rewrite <- List_load. now apply Hcons.
Qed.

Lemma facade_addOrUpdate_ok ixs (h : heap) si e :
  neverFails ixs -> facade_ok ixs h si ->
  exists h' si',
    Facade.addOrUpdate si (elemAny e) h = (h', si', None)
    /\ store si' = store si
    /\ facade_ok ixs h' si'.
Proof.
  intros Hnf Hok. pose proof Hok as (_ & Hwf & _).
  destruct (insert_in_step ixs h si e Hnf Hok) as (i' & Hrun & Hok').
  destruct (addOrUpdateElem_load (store si) e h Hwf) as [_ Hold].
  unfold Facade.addOrUpdate.
  destruct (addOrUpdateElem (store si) e h) as [h' old]. simpl in *.
  rewrite Hold, Hrun. eauto.
Qed.

Lemma facade_Delete_ok ixs (h : heap) si e :
  neverFails ixs -> facade_ok ixs h si ->
  exists h' si',
    Facade.Delete si (elemAny e) h = (h', si', None)
    /\ store si' = store si
    /\ facade_ok ixs h' si'.
Proof.
  intros Hnf (Hixs & Hwf & Hcons).
  destruct (deleteElem_load (store si) e h Hwf) as [Hload Hold].
  unfold Facade.Delete.
  destruct (deleteElem (store si) e h) as [h' old]. simpl in *.
  destruct old as [o|].
  - destruct (updateElem_ok (indexer_ si) (Key e) (Some o) None)
      as (i' & Hrun & Hixs' & Hin & _); [now rewrite Hixs|].
    rewrite Hrun. eexists _, _. split; [reflexivity|]. split; [reflexivity|].
    split; [simpl; congruence|]. split.
    + simpl. rewrite Hload. now apply Delete_wf.
    + intros name f Hname. simpl in *. rewrite List_load, Hload.
      rewrite Hixs' in Hname. rewrite (Hin _ _ Hname). simpl.
      rewrite Hold. apply files_delete; [exact Hwf|].
      rewrite <- List_load. now apply Hcons.
  - eexists _, _. split; [reflexivity|]. split; [reflexivity|].
    assert (Hsame : load h' (tree (store si)) = load h (tree (store si))).
    { rewrite Hload. now apply Delete_absent. }
    split; [assumption|]. split; [now rewrite Hsame|].
    intros name f Hname. rewrite List_load, Hsame, <- List_load. now apply Hcons.
Qed.

End FacadeSteps.

Section FacadeReplace.
Implicit Types (e : storeElement) (si : threadedStoreIndexer).

Lemma elem_key_in_keys e (objs : list any) :
  elemAny e ∈ objs -> Key e ∈ Key <$> omap asElem objs.
Proof.
  intros Hin. apply list_elem_of_fmap. exists e. split; [reflexivity|].
  apply list_elem_of_omap. now exists (elemAny e).
Qed.

(** the loop of the store and the loop of the indexer, over the same
    objects, keep store and indices in step *)
Lemma Replace_loops_ok ixs (s : btreeStore) :
  neverFails ixs ->
  forall (objs : list any) (h : heap) (i : indexer),
    distinctElements objs ->
    facade_ok ixs h {| store := s; indexer_ := i |} ->
    (forall e e0, elemAny e ∈ objs -> e0 ∈ load h (tree s) -> Key e0 <> Key e) ->
    exists h' i',
      Store.Replace_loop s objs h = (h', None)
      /\ Indexer.Replace_loop i objs = (i', None)
      /\ facade_ok ixs h' {| store := s; indexer_ := i' |}.
Proof.
  intros Hnf. induction objs as [|obj objs IH]; intros h i [Helems Hkeys] Hok Hnew.
  - exists h, i. auto.
  - apply Forall_cons in Helems as [[e He] Helems].
    destruct obj as [|e'|]; try discriminate. injection He as ->.
    simpl in Hkeys. apply NoDup_cons in Hkeys as [Hfresh Hkeys].
    pose proof Hok as (_ & Hwf & _). simpl in Hwf.
    assert (Habsent : btree.Get (load h (tree s)) e = None).
    { destruct (btree.Get (load h (tree s)) e) as [e0|] eqn:Hget; [|reflexivity].
      apply Get_by_key in Hget as [Hin Hk]; [|assumption].
      exfalso. apply (Hnew e e0); [now left|assumption|assumption]. }
    destruct (insert_in_step ixs h _ e Hnf Hok) as (i1 & Hrun & Hok1).
    simpl in Hrun, Hok1. rewrite Habsent in Hrun.
    destruct (IH (fst (addOrUpdateElem s e h)) i1) as (h' & i' & Hs & Hi & Hok').
    + now split.
    + exact Hok1.
    + intros e1 e0 He1 He0.
      destruct (addOrUpdateElem_load s e h Hwf) as [Hload _].
      rewrite Hload in He0. apply elem_of_ReplaceOrInsert in He0; [|assumption].
      destruct He0 as [->|[He0 _]].
      * intros Heq. apply Hfresh. rewrite Heq. now apply elem_key_in_keys.
      * apply (Hnew e1 e0); [now right|assumption].
    + exists h', i'. simpl. rewrite Hrun. auto.
Qed.

Lemma facade_Replace_ok ixs (h : heap) si objs rv :
  neverFails ixs -> distinctElements objs -> facade_ok ixs h si ->
  exists h' si',
    Facade.Replace si objs rv h = (h', si', None)
    /\ store si' = store si
    /\ facade_ok ixs h' si'.
Proof.
  intros Hnf Hobjs (Hixs & Hwf & Hcons).
  destruct (Replace_loops_ok ixs (store si) Hnf objs
              (<[tree (store si) := Clear (load h (tree (store si)))]> h)
              {| indices := ∅; indexers := indexers (indexer_ si) |} Hobjs)
    as (h' & i' & Hs & Hi & Hok').
  - split; [exact Hixs|]. simpl. rewrite load_insert_eq. split; [apply wf_nil|].
    intros name f Hname value key p. simpl.
    rewrite List_load, load_insert_eq. unfold lookup2. rewrite lookup_empty. simpl.
    rewrite lookup_empty. simpl. split; [discriminate|].
    intros (e & _ & Hin & _). inversion Hin.
  - intros e e0 _ Hin. simpl in Hin. rewrite load_insert_eq in Hin. inversion Hin.
  - unfold Facade.Replace, Store.Replace, Indexer.Replace. rewrite Hs, Hi.
    eexists _, _. split; [reflexivity|]. split; [reflexivity|]. exact Hok'.
Qed.

End FacadeReplace.

Lemma newThreadedBtreeStoreIndexer_ok ixs degree (h0 : heap) :
  facade_ok ixs (fst (newThreadedBtreeStoreIndexer ixs degree h0))
    (snd (newThreadedBtreeStoreIndexer ixs degree h0)).
Proof.
  unfold newThreadedBtreeStoreIndexer, newBtreeStore, alloc. simpl.
  split; [reflexivity|]. rewrite load_insert_eq. split; [apply wf_nil|].
  intros name f Hname value key p. simpl.
  rewrite List_load. simpl. rewrite load_insert_eq.
  unfold lookup2. rewrite lookup_empty. simpl. rewrite lookup_empty. simpl.
  split; [discriminate|]. intros (e & _ & Hin & _). inversion Hin.
Qed.

(** every well-formed mutation through the facade succeeds or is refused
    whole, and keeps the facade in order *)
Lemma step_ok ixs (h : heap) si m :
  neverFails ixs -> wellFormed m -> facade_ok ixs h si ->
  facade_ok ixs (fst (Client.step (h, si) m)) (snd (Client.step (h, si) m)).
Proof.
  intros Hnf Hm Hok. destruct m as [obj|obj|obj|objs rv]; simpl.
  - unfold Facade.Add. destruct obj as [|e|d]; try exact Hok.
    destruct (facade_addOrUpdate_ok ixs h si e Hnf Hok) as (h' & si' & -> & _ & Hok').
    exact Hok'.
  - unfold Facade.Update. destruct obj as [|e|d]; try exact Hok.
    destruct (facade_addOrUpdate_ok ixs h si e Hnf Hok) as (h' & si' & -> & _ & Hok').
    exact Hok'.
  - destruct obj as [|e|d]; try exact Hok.
    destruct (facade_Delete_ok ixs h si e Hnf Hok) as (h' & si' & -> & _ & Hok').
    exact Hok'.
  - destruct (facade_Replace_ok ixs h si objs rv Hnf Hm Hok) as (h' & si' & -> & _ & Hok').
    exact Hok'.
Qed.

Lemma steps_ok ixs ms :
  neverFails ixs -> Forall wellFormed ms ->
  forall st, facade_ok ixs (fst st) (snd st) ->
  facade_ok ixs (fst (foldl Client.step st ms)) (snd (foldl Client.step st ms)).
Proof.
  intros Hnf. induction 1 as [|m ms Hm _ IH]; intros [h si] Hok; [exact Hok|].
  cbn [foldl]. apply IH.
  now apply step_ok.
Qed.

(** ** Index consistency *)

Lemma ByIndex_registered (i : indexer) name (f : IndexFunc) value :
  indexers i !! name = Some f ->
  snd (Indexer.ByIndex i name value) = None
  /\ forall x, x ∈ fst (Indexer.ByIndex i name value)
               <-> exists key, lookup2 (default ∅ (indices i !! name)) value key = Some x.
Proof.
  intros Hname. unfold Indexer.ByIndex. rewrite Hname. simpl.
  split; [reflexivity|]. intros x. unfold lookup2.
  rewrite list_elem_of_fmap. split.
  - intros ([key y] & -> & Hin). apply elem_of_map_to_list in Hin.
    exists key. simpl.
    destruct (default ∅ (indices i !! name) !! value); simpl in *; [assumption|].
    rewrite lookup_empty in Hin. discriminate.
  - intros (key & Hkey). exists (key, x). split; [reflexivity|].
    apply elem_of_map_to_list.
    destruct (default ∅ (indices i !! name) !! value); simpl in *;
      [assumption|discriminate].
Qed.

Lemma ByIndex_NoDup (i : indexer) name (f : IndexFunc) value t :
  files f t (default ∅ (indices i !! name)) ->
  NoDup (fst (Indexer.ByIndex i name value)).
Proof.
  intros Hfiles. unfold Indexer.ByIndex.
  destruct (indexers i !! name); simpl; [|constructor].
  apply NoDup_fmap_2_strong; [|apply NoDup_map_to_list].
  intros [k1 x1] [k2 x2] H1 H2 Heq. simpl in Heq. subst x2.
  apply elem_of_map_to_list in H1, H2.
  assert (Hl : forall k, default ∅ (default ∅ (indices i !! name) !! value) !! k = Some x1 ->
                         lookup2 (default ∅ (indices i !! name)) value k = Some x1).
  { intros k Hk. unfold lookup2.
    destruct (default ∅ (indices i !! name) !! value); simpl in *; [assumption|].
    rewrite lookup_empty in Hk. discriminate. }
  apply Hl, Hfiles in H1 as (e1 & -> & _ & <- & _).
  apply Hl, Hfiles in H2 as (e2 & [= <-] & _ & <- & _).
  reflexivity.
Qed.

(** C4, as amended: build a facade over index functions that never return
    an error and apply to it any sequence of [Add], [Update], [Delete] and
    [Replace], every [Replace] being given elements only and no key twice.
    At every point afterwards, for every registered index and every value,
    [ByIndex] succeeds and returns, once each, exactly the stored elements
    whose extraction contains the value; and the keys filed under some
    value of the index are exactly the keys of the stored elements whose
    extraction is not empty. *)
Theorem index_consistency (ixs : gmap string IndexFunc) (degree : Z) (h0 : heap)
    (ms : list Client.mutation) :
  neverFails ixs -> Forall wellFormed ms ->
  let st := foldl Client.step (newThreadedBtreeStoreIndexer ixs degree h0) ms in
  forall name f, ixs !! name = Some f ->
    (forall value,
       snd (Facade.ByIndex (snd st) name value) = None
       /\ (forall x, x ∈ fst (Facade.ByIndex (snd st) name value)
                     <-> exists e, x = Some e
                                   /\ e ∈ Facade.List (snd st) (fst st)
                                   /\ value ∈ valuesOf f (Some e))
       /\ NoDup (fst (Facade.ByIndex (snd st) name value)))
    /\ (forall key,
          (exists value,
             is_Some (lookup2 (default ∅ (indices (indexer_ (snd st)) !! name)) value key))
          <-> exists e, e ∈ Facade.List (snd st) (fst st)
                        /\ Key e = key
                        /\ valuesOf f (Some e) <> []).
Proof.
  intros Hnf Hms st name f Hname.
  assert (Hok : facade_ok ixs (fst st) (snd st)).
  { apply steps_ok; auto. apply newThreadedBtreeStoreIndexer_ok. }
  destruct Hok as (Hixs & Hwf & Hcons).
  assert (Hreg : indexers (indexer_ (snd st)) !! name = Some f) by now rewrite Hixs.
  pose proof (Hcons name f Hreg) as Hfiles. unfold Facade.List.
  split.
  - intros value. unfold Facade.ByIndex.
    destruct (ByIndex_registered (indexer_ (snd st)) name f value Hreg) as [Herr Hin].
    split; [exact Herr|]. split.
    + intros x. rewrite Hin. split.
      * intros (key & Hkey). apply Hfiles in Hkey as (e & -> & He & _ & Hv). eauto.
      * intros (e & -> & He & Hv). exists (Key e). apply Hfiles. eauto.
    + eapply ByIndex_NoDup; eauto.
  - intros key. split.
    + intros (value & [p Hp]). apply Hfiles in Hp as (e & _ & He & Hk & Hv).
      exists e. repeat split; auto. intros Hnil. rewrite Hnil in Hv. inversion Hv.
    + intros (e & He & Hk & Hv).
      destruct (valuesOf f (Some e)) as [|value values] eqn:Hvals; [contradiction|].
      exists value, (Some e). apply Hfiles. exists e. repeat split; auto.
      rewrite Hvals. now left.
Qed.

Lemma namespaceIndexers_neverFails : neverFails Examples.namespaceIndexers.
Proof.
  intros name f e Hname. unfold Examples.namespaceIndexers in Hname.
  apply lookup_singleton_Some in Hname as [_ <-].
  unfold Examples.byNamespace.
  destruct (Examples.segments (Key e) "") as [|? [|? [|? ?]]]; eauto.
Qed.

Lemma index_consistency_witness :
  Some Examples.a1 ∈ fst (Facade.ByIndex (snd Examples.indexed) "namespace" "ns1")
  <-> exists e, Some Examples.a1 = Some e
                /\ e ∈ Facade.List (snd Examples.indexed) (fst Examples.indexed)
                /\ "ns1"%string ∈ valuesOf Examples.byNamespace (Some e).
Proof.
  pose proof (index_consistency Examples.namespaceIndexers 32 ∅
                [Client.Add (elemAny Examples.a2); Client.Add (elemAny Examples.a1);
                 Client.Add (elemAny Examples.b1)]
                namespaceIndexers_neverFails ltac:(repeat constructor)
                "namespace"%string Examples.byNamespace eq_refl) as [Hvalues _].
  destruct (Hvalues "ns1"%string) as (_ & Hin & _).
  exact (Hin (Some Examples.a1)).
Defined.

(** C4 as stated fails on [Replace]: given one key in two versions, the
    store keeps the second while the index still files the first, so
    [ByIndex] returns an element that is not stored. *)
Lemma Replace_duplicate_key_counterexample :
  ~ (forall x,
       x ∈ fst (Facade.ByIndex (snd Examples.replaced_twice) "object" "v1")
       <-> exists e, x = Some e
                     /\ e ∈ Facade.List (snd Examples.replaced_twice)
                            (fst Examples.replaced_twice)
                     /\ "v1"%string ∈ valuesOf Examples.byObject (Some e)).
Proof.
  intros Hclaim.
  assert (Hin : Some Examples.v1
                  ∈ fst (Facade.ByIndex (snd Examples.replaced_twice) "object" "v1"))
    by (vm_compute; left).
  apply Hclaim in Hin as (e & [= <-] & Hstored & _).
  vm_compute in Hstored. apply list_elem_of_singleton in Hstored. discriminate.
Qed.

(** ** The fast path of [updateElem] *)

Lemma add_filed key value (obj : option storeElement) (index : valueIndex) :
  lookup2 index value key = Some obj -> Indexer.add key value obj index = index.
Proof.
  unfold lookup2, Indexer.add. intros Hfiled.
  destruct (index !! value) as [set|] eqn:Hset; simpl in *; [|discriminate].
  rewrite (insert_id set) by assumption. now apply insert_id.
Qed.

(** C7, as amended: when a registered index yields exactly one value for
    [oldElem] and the same single value for [newElem] (and no index function
    fails on either, so that the call returns no error), [updateElem] files
    [newElem] under that value and [key] and touches nothing else of that
    index: every other entry is as before, the keys filed under each value
    are as before provided [key] was filed under the value already, and the
    index is left exactly as it was when that entry already held
    [newElem]. *)
Theorem updateElem_fast_path (i : indexer) (key : string) (oldElem newElem : storeElement)
    (name : string) (f : IndexFunc) (value : string) :
  indexers i !! name = Some f ->
  f oldElem = inl [value] -> f newElem = inl [value] ->
  (forall name' f', indexers i !! name' = Some f' ->
     (exists values, f' oldElem = inl values) /\ (exists values, f' newElem = inl values)) ->
  let r := Indexer.updateElem i key (Some oldElem) (Some newElem) in
  let index := default ∅ (indices i !! name) in
  let index' := default ∅ (indices (fst r) !! name) in
  snd r = None
  /\ index' = Indexer.add key value (Some newElem) index
  /\ lookup2 index' value key = Some (Some newElem)
  /\ (forall value' key', (value', key') <> (value, key) ->
        lookup2 index' value' key' = lookup2 index value' key')
  /\ (is_Some (lookup2 index value key) ->
      forall value' key',
        is_Some (lookup2 index' value' key') <-> is_Some (lookup2 index value' key'))
  /\ (lookup2 index value key = Some (Some newElem) -> index' = index).
Proof.
  intros Hname Hold Hnew Hsucceed r index index'.
  destruct (updateElem_succeeds i key (Some oldElem) (Some newElem))
    as (i' & Hrun & _ & Hin & _).
  { intros name' f' Hname'. destruct (Hsucceed name' f' Hname') as [[vo Ho] [vn Hn]].
    unfold valuesOf. simpl. now rewrite Ho, Hn. }
  assert (Hindex' : index' = Indexer.add key value (Some newElem) index).
  { unfold index', r. rewrite Hrun. simpl. rewrite (Hin name f Hname). simpl.
    unfold valuesOf, Indexer.updateIndex. simpl. rewrite Hold, Hnew. simpl.
    replace (Indexer.unchangedSingleValue [value] [value]) with true; [reflexivity|].
    symmetry. apply unchangedSingleValue_true. now exists value. }
  assert (Hlook : forall value' key',
            lookup2 index' value' key'
            = if decide (value' = value /\ key' = key) then Some (Some newElem)
              else lookup2 index value' key')
    by (intros; rewrite Hindex'; apply lookup2_add).
  split; [unfold r; now rewrite Hrun|].
  split; [exact Hindex'|].
  split; [rewrite Hlook; now rewrite decide_True|].
  split.
  { intros value' key' Hne. rewrite Hlook. rewrite decide_False; [reflexivity|].
    intros [-> ->]. now apply Hne. }
  split.
  { intros Hfiled value' key'. rewrite Hlook. case_decide as Hd; [|reflexivity].
    destruct Hd as [-> ->]. split; eauto. }
  intros Hsame. rewrite Hindex'. now apply add_filed.
Qed.

Lemma updateElem_fast_path_witness :
  lookup2
    (default ∅ (indices (fst (Indexer.updateElem Examples.filed_v1 (Key Examples.v1)
                                (Some Examples.v1) (Some Examples.v2)))
                !! "namespace"%string))
    "ns1" (Key Examples.v1)
  = Some (Some Examples.v2).
Proof.
  apply (updateElem_fast_path Examples.filed_v1 (Key Examples.v1) Examples.v1 Examples.v2
           "namespace" Examples.byNamespace "ns1").
  - reflexivity.
  - reflexivity.
  - reflexivity.
  - intros name' f' Hname'.
    change (indexers Examples.filed_v1) with Examples.namespaceIndexers in Hname'.
    unfold Examples.namespaceIndexers in Hname'.
    apply lookup_singleton_Some in Hname' as [_ <-].
    split; eexists; reflexivity.
Defined.

(** C7 as stated fails: both versions of the pod have the single index value
    [ns1], and the call replaces the element filed under it, so the index is
    not what it was. *)
Lemma fast_path_counterexample :
  Examples.byNamespace Examples.v1 = inl ["ns1"%string]
  /\ Examples.byNamespace Examples.v2 = inl ["ns1"%string]
  /\ indices (fst (Indexer.updateElem Examples.filed_v1 (Key Examples.v1)
                     (Some Examples.v1) (Some Examples.v2)))
     <> indices Examples.filed_v1.
Proof.
  split; [reflexivity|]. split; [reflexivity|].
  intros Heq.
  apply (f_equal (fun m : indicesMap =>
                    lookup2 (default ∅ (m !! "namespace"%string)) "ns1"
                      (Key Examples.v1))) in Heq.
  vm_compute in Heq. discriminate.
Qed.

(** ** Reachable stores are well formed

    The theorems above assume the tree of the store they speak of is
    ascending.  That is so of every store built by [newBtreeStore] or
    [Clone] and mutated in any way. *)

Lemma mutate_wf s (h : heap) m :
  wf (load h (tree s)) -> wf (load (Client.mutate s h m) (tree s)).
Proof.
  assert (Hadd : forall e (h : heap), wf (load h (tree s)) ->
                   wf (load (fst (addOrUpdateElem s e h)) (tree s))).
  { intros e h1 Hwf. destruct (addOrUpdateElem_load s e h1 Hwf) as [-> _].
    now apply ReplaceOrInsert_wf. }
  intros Hwf. destruct m as [obj|obj|obj|objs rv]; simpl.
  - destruct obj; simpl; auto.
  - destruct obj; simpl; auto.
  - destruct obj as [|e|]; simpl; auto.
    destruct (deleteElem_load s e h Hwf) as [-> _]. now apply Delete_wf.
  - unfold Store.Replace.
    assert (Hloop : forall (h1 : heap), wf (load h1 (tree s)) ->
              wf (load (fst (Store.Replace_loop s objs h1)) (tree s))).
    { induction objs as [|obj objs IH]; intros h1 Hwf1; simpl; [assumption|].
      destruct obj; simpl; auto. }
    apply Hloop. rewrite load_insert_eq. apply wf_nil.
Qed.

Lemma reachable_store_wf degree (h0 : heap) ms :
  let h := fst (newBtreeStore degree h0) in
  let s := snd (newBtreeStore degree h0) in
  wf (load (foldl (Client.mutate s) h ms) (tree s)).
Proof.
  cbv zeta.
  assert (Hgen : forall s ms (h : heap), wf (load h (tree s)) ->
                   wf (load (foldl (Client.mutate s) h ms) (tree s))).
  { intros s. induction ms0 as [|m ms0 IH]; intros h Hwf; simpl; [assumption|].
    apply IH. now apply mutate_wf. }
  apply Hgen. unfold newBtreeStore, alloc. simpl. rewrite load_insert_eq. apply wf_nil.
Qed.

Lemma Clone_wf s (h : heap) :
  wf (load h (tree s)) ->
  wf (load (fst (Store.Clone s h)) (tree (snd (Store.Clone s h)))).
Proof.
  intros Hwf. unfold Store.Clone, alloc. simpl. now rewrite load_insert_eq.
Qed.

(** ** Looking up what was stored *)

Section Lookups.
Implicit Types (t : BTree storeElement) (e k : storeElement) (s : btreeStore).

(** the tree compares keys only: any two elements with one key find the same *)
Lemma Get_key_only t (e k : storeElement) :
  Key e = Key k -> btree.Get t e = btree.Get t k.
Proof.
  intros Hk. unfold btree.Get.
  induction t as [|x t IH]; simpl; [reflexivity|].
  rewrite IH. unfold same, Less, storeElement_Less. now rewrite Hk.
Qed.

Lemma Get_ReplaceOrInsert t e k :
  wf t ->
  btree.Get (fst (ReplaceOrInsert t e)) k
  = if decide (Key e = Key k) then Some e else btree.Get t k.
Proof.
  intros Hwf. apply option_eq. intros x.
  rewrite Get_by_key by now apply ReplaceOrInsert_wf.
  rewrite elem_of_ReplaceOrInsert, same_Key_false by assumption.
  case_decide as Hd.
  - split.
    + intros [[->|[_ Hne]] Hx]; [reflexivity|congruence].
    + intros [= <-]. auto.
  - rewrite Get_by_key by assumption. split.
    + intros [[->|[Hin _]] Hx]; [congruence|auto].
    + intros [Hin Hx]. split; [|assumption]. right. split; [assumption|congruence].
Qed.

Lemma Get_Delete t e k :
  wf t ->
  btree.Get (fst (btree.Delete t e)) k
  = if decide (Key e = Key k) then None else btree.Get t k.
Proof.
  intros Hwf. apply option_eq. intros x.
  rewrite Get_by_key by now apply Delete_wf.
  rewrite elem_of_Delete, same_Key_false by assumption.
  case_decide as Hd.
  - split; [|discriminate]. intros [[_ Hne] Hx]. congruence.
  - rewrite Get_by_key by assumption. split.
    + intros [[Hin _] Hx]. auto.
    + intros [Hin Hx]. split; [|assumption]. split; [assumption|congruence].
Qed.

Lemma GetByKey_load s key (h : heap) :
  Store.GetByKey s key h
  = (btree.Get (load h (tree s)) {| Key := key; Object := None |},
     bool_decide (btree.Get (load h (tree s)) {| Key := key; Object := None |} <> None),
     None).
Proof. reflexivity. Qed.

Lemma Add_GetByKey_eq s (h : heap) e (key : string) :
  wf (load h (tree s)) ->
  Store.GetByKey s key (fst (Store.Add s (elemAny e) h))
  = if decide (Key e = key) then (Some e, true, None)
    else Store.GetByKey s key h.
Proof.
  intros Hwf. rewrite !GetByKey_load. simpl fst.
  destruct (addOrUpdateElem_load s e h Hwf) as [-> _].
  rewrite Get_ReplaceOrInsert by assumption. simpl.
  case_decide; reflexivity.
Qed.

(** X1: on a well-formed store, [Add] (and [Update], which is the same) of
    an element succeeds; afterwards [GetByKey] of its key returns that very
    element with [exists = true], and [GetByKey] of any other key answers as
    before. *)
Theorem Add_then_GetByKey s (h : heap) e (key : string) :
  wf (load h (tree s)) ->
  snd (Store.Add s (elemAny e) h) = None
  /\ Store.Update s (elemAny e) h = Store.Add s (elemAny e) h
  /\ Store.GetByKey s key (fst (Store.Add s (elemAny e) h))
     = if decide (Key e = key) then (Some e, true, None)
       else Store.GetByKey s key h.
Proof.
  intros Hwf. split; [reflexivity|]. split; [reflexivity|].
  now apply Add_GetByKey_eq.
Qed.

Lemma Add_then_GetByKey_witness :
  Store.GetByKey (snd Examples.three) "/pods/ns1/a"
    (fst (Store.Add (snd Examples.three) (elemAny Examples.v2) (fst Examples.three)))
  = (Some Examples.v2, true, None).
Proof.
  apply (Add_then_GetByKey (snd Examples.three) (fst Examples.three) Examples.v2
           "/pods/ns1/a").
  vm_compute. repeat constructor.
Defined.

(** X2: on a well-formed store, [Delete] of an element succeeds whether or
    not its key is stored; afterwards [GetByKey] of its key finds nothing,
    [GetByKey] of any other key answers as before, and when the key was not
    stored the listing is unchanged. *)
Theorem Delete_then_GetByKey s (h : heap) e (key : string) :
  wf (load h (tree s)) ->
  snd (Store.Delete s (elemAny e) h) = None
  /\ Store.GetByKey s key (fst (Store.Delete s (elemAny e) h))
     = (if decide (Key e = key) then (None, false, None)
        else Store.GetByKey s key h)
  /\ (Store.GetByKey s (Key e) h = (None, false, None) ->
      Store.List s (fst (Store.Delete s (elemAny e) h)) = Store.List s h).
Proof.
  intros Hwf. split; [reflexivity|].
  destruct (deleteElem_load s e h Hwf) as [Hload _]. split.
  - rewrite !GetByKey_load. simpl fst. rewrite Hload.
    rewrite Get_Delete by assumption. simpl.
    now case_decide.
  - rewrite GetByKey_load. intros [= Habsent _]. rewrite !List_load. simpl fst.
    rewrite Hload. apply Delete_absent; [assumption|].
    rewrite <- Habsent. now apply Get_key_only.
Qed.

Lemma Delete_then_GetByKey_witness :
  Store.GetByKey (snd Examples.three) "/pods/ns1/a"
    (fst (Store.Delete (snd Examples.three) (elemAny Examples.v2) (fst Examples.three)))
  = (None, false, None).
Proof.
  apply (Delete_then_GetByKey (snd Examples.three) (fst Examples.three) Examples.v2
           "/pods/ns1/a").
  vm_compute. repeat constructor.
Defined.

(** X3: [Get] looks an element up by its key alone, whatever object the
    argument carries: it answers exactly as [GetByKey] of that key; given
    nil or anything that is not a [*storeElement] it returns an error and
    [exists = false]; and on a well-formed store [exists] tells whether the
    key is among [ListKeys]. *)
Theorem Get_is_GetByKey s (h : heap) e (obj : any) :
  wf (load h (tree s)) ->
  Store.Get s (elemAny e) h = Store.GetByKey s (Key e) h
  /\ ((forall e', obj <> elemAny e') ->
      Store.Get s obj h = (None, false, Some errIsNotStoreElement))
  /\ (snd (fst (Store.GetByKey s (Key e) h)) = true <-> Key e ∈ Store.ListKeys s h)
  /\ (forall item, fst (fst (Store.Get s (elemAny e) h)) = Some item ->
        Key item = Key e /\ item ∈ Store.List s h).
Proof.
  intros Hwf.
  assert (Hget : btree.Get (load h (tree s)) e
                 = btree.Get (load h (tree s)) {| Key := Key e; Object := None |})
    by now apply Get_key_only.
  split.
  { rewrite GetByKey_load. unfold Store.Get. rewrite <- Hget.
    now destruct (btree.Get (load h (tree s)) e). }
  split.
  { intros Hbad. destruct obj as [|e'|d]; [reflexivity| |reflexivity].
    exfalso. now apply (Hbad e'). }
  split.
  { rewrite GetByKey_load, ListKeys_load. simpl. rewrite <- Hget.
    rewrite bool_decide_eq_true, list_elem_of_fmap. split.
    - intros Hsome. destruct (btree.Get (load h (tree s)) e) as [x|] eqn:Hx;
        [|contradiction].
      apply Get_by_key in Hx as [Hin Hk]; [|assumption]. eauto.
    - intros (x & Hk & Hin).
      assert (Hx : btree.Get (load h (tree s)) e = Some x)
        by (apply Get_by_key; auto).
      rewrite Hx. discriminate. }
  intros item. unfold Store.Get. rewrite List_load.
  destruct (btree.Get (load h (tree s)) e) as [x|] eqn:Hx; simpl; [|discriminate].
  intros [= <-]. apply Get_by_key in Hx as [Hin Hk]; auto.
Qed.

Lemma Get_is_GetByKey_witness :
  Store.Get (snd Examples.three) (elemAny Examples.v2) (fst Examples.three)
  = Store.GetByKey (snd Examples.three) (Key Examples.v2) (fst Examples.three).
Proof.
  apply (Get_is_GetByKey (snd Examples.three) (fst Examples.three) Examples.v2 nilAny).
  vm_compute. repeat constructor.
Defined.

End Lookups.

(** ** Listing order *)

Lemma wf_keys_sorted (t : BTree storeElement) :
  wf t -> StronglySorted (fun a b => GoString.lt a b = true) (Key <$> t).
Proof.
  induction t as [|x t IH]; intros Hwf; simpl; [constructor|].
  apply wf_cons in Hwf as [Hwf Hall]. constructor; [auto|].
  apply Forall_fmap. exact Hall.
Qed.

Lemma wf_keys_NoDup (t : BTree storeElement) : wf t -> NoDup (Key <$> t).
Proof.
  induction t as [|x t IH]; intros Hwf; simpl; [constructor|].
  apply wf_cons in Hwf as [Hwf Hall]. constructor; [|auto].
  intros Hin. apply list_elem_of_fmap in Hin as (y & Hk & Hy).
  rewrite Forall_forall in Hall. specialize (Hall y Hy).
  unfold Less, storeElement_Less in Hall.
  rewrite Hk, GoStringFacts.lt_irrefl in Hall. discriminate.
Qed.

(** X4: whatever mutations a new store has gone through, [List] returns its
    elements in strictly ascending order of key, and [ListKeys] returns the
    keys of those same elements in the same order, strictly ascending and so
    without repetition. *)
Theorem List_ascending (degree : Z) (h0 : heap) (ms : list Client.mutation) :
  let s := snd (newBtreeStore degree h0) in
  let h := foldl (Client.mutate s) (fst (newBtreeStore degree h0)) ms in
  Spec.ascending (Store.List s h)
  /\ Store.ListKeys s h = Key <$> Store.List s h
  /\ StronglySorted (fun a b => GoString.lt a b = true) (Store.ListKeys s h)
  /\ NoDup (Store.ListKeys s h).
Proof.
  intros s h. pose proof (reachable_store_wf degree h0 ms) as Hwf. cbv zeta in Hwf.
  fold s in Hwf. fold h in Hwf.
  rewrite ListKeys_load, List_load.
  repeat split; [exact Hwf|now apply wf_keys_sorted|now apply wf_keys_NoDup].
Qed.

(** ** Replacing everything *)

Lemma Replace_loop_Get s (k : storeElement) : forall (objs : list any) (h : heap),
  wf (load h (tree s)) ->
  wf (load (fst (Store.Replace_loop s objs h)) (tree s))
  /\ btree.Get (load (fst (Store.Replace_loop s objs h)) (tree s)) k
     = match System.lastByKey (System.accepted objs) (Key k) with
       | Some e => Some e
       | None => btree.Get (load h (tree s)) k
       end.
Proof.
  induction objs as [|obj objs IH]; intros h Hwf; [now split|].
  destruct obj as [|e|d]; simpl; try now split.
  destruct (addOrUpdateElem_load s e h Hwf) as [Hload _].
  destruct (IH (fst (addOrUpdateElem s e h))) as [Hwf' Hget].
  { rewrite Hload. now apply ReplaceOrInsert_wf. }
  split; [exact Hwf'|]. rewrite Hget. fold (System.accepted objs).
  destruct (System.lastByKey (System.accepted objs) (Key k)); [reflexivity|].
  rewrite Hload, Get_ReplaceOrInsert by assumption.
  destruct (String.eqb_spec (Key e) (Key k)); case_decide; congruence.
Qed.

Lemma Replace_loop_error s : forall (objs : list any) (h : heap),
  snd (Store.Replace_loop s objs h)
  = match drop (length (System.accepted objs)) objs with
    | [] => None
    | obj :: _ => Some (errNotStoreElement obj)
    end.
Proof.
  induction objs as [|obj objs IH]; intros h; [reflexivity|].
  destruct obj as [|e|d]; simpl; try reflexivity. apply IH.
Qed.

Lemma Replace_GetByKey_eq s (h : heap) (objs : list any) (rv key : string) :
  Store.GetByKey s key (fst (Store.Replace s objs rv h))
  = (System.lastByKey (System.accepted objs) key,
     bool_decide (System.lastByKey (System.accepted objs) key <> None), None).
Proof.
  unfold Store.Replace. rewrite GetByKey_load.
  destruct (Replace_loop_Get s {| Key := key; Object := None |} objs
              (<[tree s := Clear (load h (tree s))]> h)) as [_ Hget].
  { rewrite load_insert_eq. apply wf_nil. }
  rewrite Hget, load_insert_eq. simpl.
  now destruct (System.lastByKey (System.accepted objs) key).
Qed.

Lemma Replace_error s (h : heap) (objs : list any) (rv : string) :
  snd (Store.Replace s objs rv h)
  = match drop (length (System.accepted objs)) objs with
    | [] => None
    | obj :: _ => Some (errNotStoreElement obj)
    end.
Proof. unfold Store.Replace. apply Replace_loop_error. Qed.

(** X5: [Replace] discards whatever the store held.  It takes the objects in
    order up to the first that is not a [*storeElement]; afterwards
    [GetByKey] of a key returns the last of the objects taken that has this
    key, and nothing when there is none.  The error is nil when every object
    was taken, and otherwise names the first object that was not. *)
Theorem Replace_then_GetByKey s (h : heap) (objs : list any) (rv key : string) :
  Store.GetByKey s key (fst (Store.Replace s objs rv h))
  = (System.lastByKey (System.accepted objs) key,
     bool_decide (System.lastByKey (System.accepted objs) key <> None), None)
  /\ snd (Store.Replace s objs rv h)
     = match drop (length (System.accepted objs)) objs with
       | [] => None
       | obj :: _ => Some (errNotStoreElement obj)
       end.
Proof. split; [apply Replace_GetByKey_eq|apply Replace_error]. Qed.

Example Replace_last_wins :
  Store.GetByKey (snd Examples.three) "/pods/ns1/a"
    (fst (Store.Replace (snd Examples.three)
            [elemAny Examples.v1; elemAny Examples.v2; nilAny; elemAny Examples.b1] ""
            (fst Examples.three)))
  = (Some Examples.v2, true, None)
  /\ Store.ListKeys (snd Examples.three)
       (fst (Store.Replace (snd Examples.three)
               [elemAny Examples.v1; elemAny Examples.v2; nilAny; elemAny Examples.b1] ""
               (fst Examples.three)))
     = ["/pods/ns1/a"%string].
Proof. vm_compute. auto. Qed.

(** ** The facade and its store *)

Lemma step_mutate (h : heap) (si : threadedStoreIndexer) (m : Client.mutation) :
  fst (Client.step (h, si) m) = Client.mutate (store si) h m
  /\ store (snd (Client.step (h, si) m)) = store si.
Proof.
  destruct m as [obj|obj|obj|objs rv]; simpl.
  - unfold Facade.Add, Facade.addOrUpdate, Store.Add. destruct obj as [|e|d]; auto.
    destruct (addOrUpdateElem (store si) e h) as [h' old].
    now destruct (Indexer.updateElem (indexer_ si) (Key e) old (Some e)).
  - unfold Facade.Update, Facade.addOrUpdate, Store.Update. destruct obj as [|e|d]; auto.
    destruct (addOrUpdateElem (store si) e h) as [h' old].
    now destruct (Indexer.updateElem (indexer_ si) (Key e) old (Some e)).
  - unfold Facade.Delete, Store.Delete. destruct obj as [|e|d]; auto.
    destruct (deleteElem (store si) e h) as [h' [old|]]; auto.
    now destruct (Indexer.updateElem (indexer_ si) (Key e) (Some old) None).
  - unfold Facade.Replace.
    destruct (Store.Replace (store si) objs rv h) as [h' [err|]]; auto.
    now destruct (Indexer.Replace (indexer_ si) objs rv).
Qed.

(** X6: a mutation through the facade does to the store exactly what the
    same mutation does to a bare store, whether or not the indexer then
    reports an error, and the facade keeps its store. *)
Theorem facade_stores_like_store (h : heap) (si : threadedStoreIndexer)
    (m : Client.mutation) :
  fst (Client.step (h, si) m) = Client.mutate (store si) h m
  /\ store (snd (Client.step (h, si) m)) = store si.
Proof. apply step_mutate. Qed.

(** X7: [Delete] through the facade of an element whose key is not stored
    returns nil and changes nothing: the listing is as before and the facade,
    with every index, is the very same. *)
Theorem facade_Delete_absent (h : heap) (si : threadedStoreIndexer) (e : storeElement) :
  wf (load h (tree (store si))) ->
  Facade.GetByKey si (Key e) h = (None, false, None) ->
  snd (Facade.Delete si (elemAny e) h) = None
  /\ snd (fst (Facade.Delete si (elemAny e) h)) = si
  /\ Facade.List si (fst (fst (Facade.Delete si (elemAny e) h))) = Facade.List si h.
Proof.
  intros Hwf. unfold Facade.GetByKey. rewrite GetByKey_load. intros [= Habsent _].
  destruct (deleteElem_load (store si) e h Hwf) as [Hload Hold].
  assert (Hnone : btree.Get (load h (tree (store si))) e = None)
    by (rewrite <- Habsent; now apply Get_key_only).
  unfold Facade.Delete, Facade.List. rewrite !List_load.
  destruct (deleteElem (store si) e h) as [h' old]. simpl in *.
  rewrite Hold, Hnone. simpl. repeat split.
  rewrite Hload. now apply Delete_absent.
Qed.

Lemma facade_Delete_absent_witness :
  snd (fst (Facade.Delete (snd Examples.indexed) (elemAny (Examples.pod "/pods/ns3/z"))
              (fst Examples.indexed)))
  = snd Examples.indexed.
Proof.
  apply (facade_Delete_absent (fst Examples.indexed) (snd Examples.indexed)
           (Examples.pod "/pods/ns3/z")).
  - vm_compute. repeat constructor.
  - vm_compute. reflexivity.
Defined.

(** X8: when some object given to [Replace] through the facade is not a
    [*storeElement], the call returns the error naming the first such
    object, leaves the indexer untouched (the facade is the very same), and
    yet the store has lost what it held: it holds what the objects before
    that one put there. *)
Theorem facade_Replace_refused (h : heap) (si : threadedStoreIndexer)
    (objs : list any) (rv : string) (obj : any) (rest : list any) :
  drop (length (System.accepted objs)) objs = obj :: rest ->
  Facade.Replace si objs rv h
    = (fst (Store.Replace (store si) objs rv h), si, Some (errNotStoreElement obj))
  /\ forall key,
       Facade.GetByKey si key (fst (fst (Facade.Replace si objs rv h)))
       = (System.lastByKey (System.accepted objs) key,
          bool_decide (System.lastByKey (System.accepted objs) key <> None), None).
Proof.
  intros Hbad.
  assert (Hrun : Facade.Replace si objs rv h
                 = (fst (Store.Replace (store si) objs rv h), si,
                    Some (errNotStoreElement obj))).
  { unfold Facade.Replace.
    pose proof (Replace_error (store si) h objs rv) as Herr.
    rewrite Hbad in Herr.
    destruct (Store.Replace (store si) objs rv h) as [h' err]. simpl in Herr.
    now subst err. }
  split; [exact Hrun|]. intros key. rewrite Hrun. simpl. unfold Facade.GetByKey.
  apply Replace_GetByKey_eq.
Qed.

Lemma facade_Replace_refused_witness :
  Facade.Replace (snd Examples.indexed) [elemAny Examples.v1; nilAny] ""
    (fst Examples.indexed)
  = (fst (Store.Replace (store (snd Examples.indexed)) [elemAny Examples.v1; nilAny] ""
            (fst Examples.indexed)),
     snd Examples.indexed, Some (errNotStoreElement nilAny)).
Proof.
  apply (facade_Replace_refused (fst Examples.indexed) (snd Examples.indexed)
           [elemAny Examples.v1; nilAny] "" nilAny []).
  reflexivity.
Defined.

(** after such a refusal the index still files a pod the store has lost *)
Example facade_Replace_refused_stale :
  let st := Facade.Replace (snd Examples.indexed) [elemAny Examples.v1; nilAny] ""
              (fst Examples.indexed) in
  Facade.ListKeys (snd (fst st)) (fst (fst st)) = ["/pods/ns1/a"%string]
  /\ fst (Facade.ByIndex (snd (fst st)) "namespace" "ns2") = [Some Examples.a2].
Proof. vm_compute. auto. Qed.

(** ** How much a page holds *)

(** X9: for a positive limit, [ListPrefix] reports more exactly when [Count]
    over the same prefix and continue key exceeds the limit, and the page
    holds the smaller of the limit and that count; no order on the tree is
    needed for this. *)
Theorem hasMore_iff_Count s (h : heap) (prefix continueKey : string) (limit : Z) :
  (0 < limit)%Z ->
  (snd (Store.ListPrefix s prefix continueKey limit h) = true
   <-> (limit < Store.Count s prefix continueKey h)%Z)
  /\ Z.of_nat (length (fst (Store.ListPrefix s prefix continueKey limit h)))
     = Z.min limit (Store.Count s prefix continueKey h).
Proof.
  intros Hpos. rewrite ListPrefix_refines, Count_matching by lia.
  unfold Spec.ListPrefix.
  destruct (Z.eqb_spec limit 0) as [->|_]; [lia|]. simpl.
  rewrite Nat.ltb_lt, length_take. lia.
Qed.

Lemma hasMore_iff_Count_witness :
  snd (Store.ListPrefix (snd Examples.three) "/pods/" "" 2 (fst Examples.three)) = true
  <-> (2 < Store.Count (snd Examples.three) "/pods/" "" (fst Examples.three))%Z.
Proof.
  apply (hasMore_iff_Count (snd Examples.three) (fst Examples.three) "/pods/" "" 2).
  lia.
Defined.

(** X10: on a well-formed store, [Count] with an empty continue key is the
    number of stored elements whose key has the prefix; with an empty prefix
    too it is the number of stored elements, and [ListPrefix("", "", 0)] is
    the whole listing. *)
Theorem Count_counts_prefixed s (h : heap) (prefix : string) :
  wf (load h (tree s)) ->
  Store.Count s prefix "" h
    = Z.of_nat (length (List.filter (fun e => GoString.HasPrefix (Key e) prefix)
                          (Store.List s h)))
  /\ Store.Count s "" "" h = Z.of_nat (length (Store.List s h))
  /\ Store.ListPrefix s "" "" 0 h = (Store.List s h, false).
Proof.
  intros Hwf.
  assert (Hall : List.filter (Spec.hasPrefix "") (Store.List s h) = Store.List s h).
  { apply filter_all, Forall_forall. intros x _. apply GoStringFacts.HasPrefix_empty. }
  rewrite !Count_matching, ListPrefix_refines by lia.
  unfold Spec.ListPrefix. simpl.
  rewrite List_load in *. rewrite !matching_all by assumption.
  rewrite Hall. auto.
Qed.

Lemma Count_counts_prefixed_witness :
  Store.Count (snd Examples.three) "/pods/ns1/" "" (fst Examples.three)
  = Z.of_nat (length (List.filter (fun e => GoString.HasPrefix (Key e) "/pods/ns1/")
                        (Store.List (snd Examples.three) (fst Examples.three)))).
Proof.
  apply (Count_counts_prefixed (snd Examples.three) (fst Examples.three) "/pods/ns1/").
  vm_compute. repeat constructor.
Defined.

(** ** What the indexer never keeps *)

Section NoEmptySets.
Implicit Types (index : valueIndex) (m : indicesMap).

Lemma add_no_empty key value obj index :
  System.index_no_empty index -> System.index_no_empty (Indexer.add key value obj index).
Proof.
  intros Hne value' set. unfold Indexer.add. rewrite lookup_insert.
  case_decide; [|apply Hne]. intros [= <-]. apply insert_non_empty.
Qed.

Lemma delete_no_empty key value index :
  System.index_no_empty index -> System.index_no_empty (Indexer.delete key value index).
Proof.
  intros Hne value' set. unfold Indexer.delete.
  destruct (index !! value) as [set0|] eqn:Hset; [|apply Hne].
  destruct (Nat.eqb_spec (size (base.delete key set0)) 0) as [Hempty|Hsome].
  - rewrite lookup_delete. case_decide; [discriminate|apply Hne].
  - rewrite lookup_insert. case_decide; [|apply Hne].
    intros [= <-] Heq. apply Hsome. rewrite Heq. apply map_size_empty.
Qed.

Lemma updateIndex_no_empty key oldIndexValues indexValues obj index :
  System.index_no_empty index ->
  System.index_no_empty (Indexer.updateIndex key oldIndexValues indexValues obj index).
Proof.
  intros Hne. unfold Indexer.updateIndex.
  destruct (Indexer.unchangedSingleValue indexValues oldIndexValues);
    [now apply add_no_empty|].
  assert (Hdel : forall values index0, System.index_no_empty index0 ->
            System.index_no_empty
              (foldl (fun index value => Indexer.delete key value index) index0 values)).
  { induction values as [|v values IH]; intros index0 H0; simpl; [assumption|].
    apply IH. now apply delete_no_empty. }
  assert (Hadd : forall values index0, System.index_no_empty index0 ->
            System.index_no_empty
              (foldl (fun index value => Indexer.add key value obj index) index0 values)).
  { induction values as [|v values IH]; intros index0 H0; simpl; [assumption|].
    apply IH. now apply add_no_empty. }
  apply Hadd, Hdel, Hne.
Qed.

Lemma updateElem_loop_no_empty key oldObj newObj :
  forall (entries : list (string * IndexFunc)) m,
    System.no_empty_sets m ->
    System.no_empty_sets (fst (Indexer.updateElem_loop entries key oldObj newObj m)).
Proof.
  induction entries as [|[name indexFunc] entries IH]; intros m Hm; [exact Hm|].
  cbn [Indexer.updateElem_loop].
  destruct (Indexer.extract indexFunc oldObj) as [oldIndexValues|err]; [|exact Hm].
  destruct (Indexer.extract indexFunc newObj) as [indexValues|err]; [|exact Hm].
  apply IH. intros name' index value set. rewrite lookup_insert.
  case_decide; [|apply Hm]. intros [= <-].
  apply updateIndex_no_empty.
  destruct (m !! name) as [index0|] eqn:Hname; simpl.
  - intros value0 set0. now apply (Hm name).
  - intros value0 set0. rewrite lookup_empty. discriminate.
Qed.

Lemma updateElem_no_empty (i : indexer) key oldObj newObj :
  System.no_empty_sets (indices i) ->
  System.no_empty_sets (indices (fst (Indexer.updateElem i key oldObj newObj))).
Proof.
  intros Hi. unfold Indexer.updateElem.
  pose proof (updateElem_loop_no_empty key oldObj newObj (map_to_list (indexers i))
                (indices i) Hi) as Hloop.
  now destruct (Indexer.updateElem_loop _ _ _ _ _).
Qed.

Lemma Indexer_Replace_no_empty (i : indexer) objs rv :
  System.no_empty_sets (indices (fst (Indexer.Replace i objs rv))).
Proof.
  unfold Indexer.Replace.
  assert (Hloop : forall i0, System.no_empty_sets (indices i0) ->
            System.no_empty_sets (indices (fst (Indexer.Replace_loop i0 objs)))).
  { induction objs as [|obj objs IH]; intros i0 H0; [exact H0|].
    destruct obj as [|e|d]; simpl; try exact H0.
    pose proof (updateElem_no_empty i0 (Key e) None (Some e) H0) as Hstep.
    destruct (Indexer.updateElem i0 (Key e) None (Some e)) as [i1 [err|]];
      simpl in *; auto. }
  apply Hloop. simpl. intros name index value set. rewrite lookup_empty. discriminate.
Qed.

Lemma step_no_empty (h : heap) si (mutation : Client.mutation) :
  System.no_empty_sets (indices (indexer_ si)) ->
  System.no_empty_sets (indices (indexer_ (snd (Client.step (h, si) mutation)))).
Proof.
  intros Hsi. destruct mutation as [obj|obj|obj|objs rv]; simpl.
  - unfold Facade.Add, Facade.addOrUpdate. destruct obj as [|e|d]; auto.
    destruct (addOrUpdateElem (store si) e h) as [h' old].
    pose proof (updateElem_no_empty (indexer_ si) (Key e) old (Some e) Hsi).
    now destruct (Indexer.updateElem (indexer_ si) (Key e) old (Some e)).
  - unfold Facade.Update, Facade.addOrUpdate. destruct obj as [|e|d]; auto.
    destruct (addOrUpdateElem (store si) e h) as [h' old].
    pose proof (updateElem_no_empty (indexer_ si) (Key e) old (Some e) Hsi).
    now destruct (Indexer.updateElem (indexer_ si) (Key e) old (Some e)).
  - unfold Facade.Delete. destruct obj as [|e|d]; auto.
    destruct (deleteElem (store si) e h) as [h' [old|]]; auto.
    pose proof (updateElem_no_empty (indexer_ si) (Key e) (Some old) None Hsi).
    now destruct (Indexer.updateElem (indexer_ si) (Key e) (Some old) None).
  - unfold Facade.Replace.
    destruct (Store.Replace (store si) objs rv h) as [h' [err|]]; auto.
    pose proof (Indexer_Replace_no_empty (indexer_ si) objs rv).
    now destruct (Indexer.Replace (indexer_ si) objs rv).
Qed.

End NoEmptySets.

(** X11: whatever mutations a new facade has gone through, accepted or
    refused, with index functions that succeed or fail, no index keeps an
    empty set of keys under a value: a value whose last key goes is dropped
    from its index. *)
Theorem indexer_never_keeps_empty_sets (ixs : gmap string IndexFunc) (degree : Z)
    (h0 : heap) (ms : list Client.mutation) :
  System.no_empty_sets
    (indices (indexer_
       (snd (foldl Client.step (newThreadedBtreeStoreIndexer ixs degree h0) ms)))).
Proof.
  assert (Hgen : forall ms st,
            System.no_empty_sets (indices (indexer_ (snd st))) ->
            System.no_empty_sets (indices (indexer_ (snd (foldl Client.step st ms))))).
  { induction ms0 as [|m ms0 IH]; intros [h si] Hst; [exact Hst|].
    cbn [foldl]. apply IH. now apply step_no_empty. }
  apply Hgen. unfold newThreadedBtreeStoreIndexer, newBtreeStore, alloc. simpl.
  intros name index value set. rewrite lookup_empty. discriminate.
Qed.

(** for instance, deleting the only pod of namespace ns2 drops the value *)
Example value_dropped_with_last_key :
  default ∅ (indices (indexer_ (snd (Client.step Examples.indexed
                                       (Client.Delete (elemAny Examples.a2)))))
             !! "namespace"%string) !! "ns2"%string = None.
Proof. vm_compute. reflexivity. Qed.

(** ** When an index function fails *)

Lemma updateElem_loop_fails key oldObj newObj :
  forall (entries : list (string * IndexFunc)) (m : indicesMap) name f err,
    (name, f) ∈ entries -> Indexer.extract f newObj = inr err ->
    exists name' err',
      snd (Indexer.updateElem_loop entries key oldObj newObj m)
      = Some (errIndexEntry key name' err').
Proof.
  induction entries as [|[name0 f0] entries IH]; intros m name f err Hin Hfail;
    [inversion Hin|].
  cbn [Indexer.updateElem_loop].
  destruct (Indexer.extract f0 oldObj) as [oldIndexValues|err0] eqn:Hold; [|simpl; eauto].
  destruct (Indexer.extract f0 newObj) as [indexValues|err0] eqn:Hnew; [|simpl; eauto].
  apply elem_of_cons in Hin as [[= -> ->]|Hin]; [congruence|].
  eapply IH; eauto.
Qed.

(** X12: when a registered index function fails on the new element, [Add]
    returns an error about an index entry for the element's key, and yet the
    element is in the store: [GetByKey] of its key returns it. *)
Theorem Add_index_error_keeps_element (h : heap) (si : threadedStoreIndexer)
    (e : storeElement) (name : string) (f : IndexFunc) (err : error) :
  wf (load h (tree (store si))) ->
  indexers (indexer_ si) !! name = Some f -> f e = inr err ->
  (exists name' err',
     snd (Facade.Add si (elemAny e) h) = Some (errIndexEntry (Key e) name' err'))
  /\ Facade.GetByKey (snd (fst (Facade.Add si (elemAny e) h))) (Key e)
       (fst (fst (Facade.Add si (elemAny e) h)))
     = (Some e, true, None).
Proof.
  intros Hwf Hname Hfail.
  destruct (step_mutate h si (Client.Add (elemAny e))) as [Hheap Hstore].
  change (Client.step (h, si) (Client.Add (elemAny e)))
    with (fst (Facade.Add si (elemAny e) h)) in Hheap, Hstore.
  change (Client.mutate (store si) h (Client.Add (elemAny e)))
    with (fst (Store.Add (store si) (elemAny e) h)) in Hheap.
  split.
  - unfold Facade.Add, Facade.addOrUpdate.
    destruct (addOrUpdateElem (store si) e h) as [h' old].
    unfold Indexer.updateElem.
    destruct (updateElem_loop_fails (Key e) old (Some e) (map_to_list (indexers (indexer_ si)))
                (indices (indexer_ si)) name f err) as (name' & err' & Hrun).
    + now apply elem_of_map_to_list.
    + exact Hfail.
    + destruct (Indexer.updateElem_loop _ _ _ _ _) as [m' res]. simpl in *. eauto.
  - unfold Facade.GetByKey. rewrite Hstore, Hheap.
    rewrite (Add_GetByKey_eq (store si) h e (Key e) Hwf).
    now rewrite decide_True.
Qed.

Lemma Add_index_error_keeps_element_witness :
  Facade.GetByKey
    (snd (fst (Facade.Add (snd (newThreadedBtreeStoreIndexer System.failingIndexers 32 ∅))
                 (elemAny Examples.a1)
                 (fst (newThreadedBtreeStoreIndexer System.failingIndexers 32 ∅)))))
    (Key Examples.a1)
    (fst (fst (Facade.Add (snd (newThreadedBtreeStoreIndexer System.failingIndexers 32 ∅))
                 (elemAny Examples.a1)
                 (fst (newThreadedBtreeStoreIndexer System.failingIndexers 32 ∅)))))
  = (Some Examples.a1, true, None).
Proof.
  apply (Add_index_error_keeps_element
           (fst (newThreadedBtreeStoreIndexer System.failingIndexers 32 ∅))
           (snd (newThreadedBtreeStoreIndexer System.failingIndexers 32 ∅))
           Examples.a1 "broken" System.failing (errIndexFunc "no index")).
  - vm_compute. repeat constructor.
  - reflexivity.
  - reflexivity.
Defined.

(** ** Clones the other way round *)

(** X13: mutations applied to a clone leave the store it was cloned from as
    it was: every read of the original keeps its answer. *)
Theorem clone_mutations_leave_original (s : btreeStore) (h : heap)
    (ms : list Client.mutation) (q : Client.query) :
  is_Some (h !! tree s) ->
  let h1 := fst (Store.Clone s h) in
  let s' := snd (Store.Clone s h) in
  Client.ask s q (foldl (Client.mutate s') h1 ms) = Client.ask s q h.
Proof.
  intros Hlive. cbv zeta.
  destruct (Clone_isolated s h h Hlive) as (Hne & _ & _).
  destruct (Clone_spec s h) as [Hclone Hfresh]. rewrite Hclone in *. simpl in *.
  apply ask_load. unfold load.
  rewrite mutations_frame by (simpl; congruence).
  now rewrite lookup_insert_ne.
Qed.

Lemma clone_mutations_leave_original_witness :
  Client.ask (snd Examples.three) Client.ListKeys
    (foldl (Client.mutate (snd (Store.Clone (snd Examples.three) (fst Examples.three))))
       (fst (Store.Clone (snd Examples.three) (fst Examples.three)))
       [Client.Replace [] ""; Client.Add (elemAny (Examples.pod "/pods/ns9/q"))])
  = Client.ask (snd Examples.three) Client.ListKeys (fst Examples.three).
Proof.
  apply (clone_mutations_leave_original (snd Examples.three) (fst Examples.three)
           [Client.Replace [] ""; Client.Add (elemAny (Examples.pod "/pods/ns9/q"))]
           Client.ListKeys).
  vm_compute. eauto.
Defined.

(** ** Cleaning up twice *)

Lemma continueCache_eq (c1 c2 : continueCache) :
  revisions c1 = revisions c2 -> cache c1 = cache c2 -> c1 = c2.
Proof. destruct c1, c2. simpl. now intros -> ->. Qed.

Lemma Cleanup_revisions c rv :
  Invariant.continueCache_ok c ->
  revisions (ContinueCache.Cleanup c rv)
  = List.filter (fun r => (rv <? r)%N) (revisions c).
Proof.
  intros [Hwf _]. unfold ContinueCache.Cleanup.
  now destruct (Cleanup_loop_spec rv (Len (revisions c)) c Hwf (le_n _)) as (-> & _).
Qed.

(** X14: on a cache in order, cleaning up to [a] and then to [b] is the
    same as cleaning up once to the greater of the two, so the order of two
    cleanups does not matter; and cleaning up to a revision below every
    cached one changes nothing. *)
Theorem Cleanup_twice (c : continueCache) (a b : N) :
  Invariant.continueCache_ok c ->
  ContinueCache.Cleanup (ContinueCache.Cleanup c a) b = ContinueCache.Cleanup c (N.max a b)
  /\ ContinueCache.Cleanup (ContinueCache.Cleanup c a) b
     = ContinueCache.Cleanup (ContinueCache.Cleanup c b) a
  /\ ((forall r, is_Some (cache c !! r) -> (a < r)%N) -> ContinueCache.Cleanup c a = c).
Proof.
  intros Hok.
  assert (Hmax : forall x y,
            ContinueCache.Cleanup (ContinueCache.Cleanup c x) y
            = ContinueCache.Cleanup c (N.max x y)).
  { intros x y. pose proof (Cleanup_ok c x Hok) as Hokx. apply continueCache_eq.
    - rewrite !Cleanup_revisions by assumption.
      induction (revisions c) as [|r revs IH]; simpl; [reflexivity|].
      destruct (N.ltb_spec x r), (N.ltb_spec (N.max x y) r); simpl;
        try destruct (N.ltb_spec y r); try lia; now rewrite ?IH.
    - apply map_eq. intros r. rewrite !Cleanup_lookup by assumption.
      destruct (N.ltb_spec x r), (N.ltb_spec y r), (N.ltb_spec (N.max x y) r);
        try lia; reflexivity. }
  split; [apply Hmax|]. split; [now rewrite !Hmax, N.max_comm|].
  intros Hbelow. pose proof Hok as [Hwf Hdom]. apply continueCache_eq.
  - rewrite Cleanup_revisions by assumption. apply filter_all, Forall_forall.
    intros r Hr. apply N.ltb_lt, Hbelow. now apply Hdom.
  - apply map_eq. intros r. rewrite Cleanup_lookup by assumption.
    destruct (N.ltb_spec a r) as [|Hle]; [reflexivity|].
    destruct (cache c !! r) eqn:Hr; [|reflexivity].
    assert (a < r)%N by (apply Hbelow; rewrite Hr; eauto). lia.
Qed.

Lemma Cleanup_twice_witness :
  ContinueCache.Cleanup (ContinueCache.Cleanup (snd Examples.cached5) 3) 7
  = ContinueCache.Cleanup (snd Examples.cached5) (N.max 3 7).
Proof.
  apply (Cleanup_twice (snd Examples.cached5) 3 7).
  apply Set_ok, newContinueCache_ok.
Defined.

(** ** The live store and its snapshots together *)

Section SystemFacts.
Implicit Types (st : System.system) (ev : System.event).

Lemma addOrUpdateElem_allocated s e (h : heap) l :
  is_Some (h !! l) -> is_Some (fst (addOrUpdateElem s e h) !! l).
Proof.
  intros Hl. unfold addOrUpdateElem.
  destruct (ReplaceOrInsert (load h (tree s)) e). simpl.
  apply lookup_insert_is_Some. destruct (decide (tree s = l)); auto.
Qed.

Lemma mutate_allocated s (h : heap) m l :
  is_Some (h !! l) -> is_Some (Client.mutate s h m !! l).
Proof.
  intros Hl. destruct m as [obj|obj|obj|objs rv]; simpl.
  - destruct obj; simpl; auto using addOrUpdateElem_allocated.
  - destruct obj; simpl; auto using addOrUpdateElem_allocated.
  - destruct obj as [|e|]; simpl; auto.
    unfold deleteElem. destruct (Delete (load h (tree s)) e). simpl.
    apply lookup_insert_is_Some. destruct (decide (tree s = l)); auto.
  - unfold Store.Replace.
    assert (Hloop : forall (h1 : heap), is_Some (h1 !! l) ->
              is_Some (fst (Store.Replace_loop s objs h1) !! l)).
    { induction objs as [|obj objs IH]; intros h1 H1; simpl; [assumption|].
      destruct obj; simpl; auto using addOrUpdateElem_allocated. }
    apply Hloop, lookup_insert_is_Some. destruct (decide (tree s = l)); auto.
Qed.

Lemma fresh_not_allocated (h : heap) l : is_Some (h !! l) -> fresh (dom h) <> l.
Proof.
  intros Hl Heq. apply elem_of_dom in Hl. rewrite <- Heq in Hl.
  exact (is_fresh _ Hl).
Qed.

Lemma Set_live_spec (c : continueCache) rv (si : threadedStoreIndexer) (h : heap) :
  ContinueCache.Set_ c rv si h
  = match cache c !! rv with
    | Some _ => (h, c)
    | None =>
        (<[fresh (dom h) := load h (tree (store si))]> h,
         {| revisions := fst (ReplaceOrInsert (revisions c) rv);
            cache := <[rv := {| tree := fresh (dom h) |}]> (cache c) |})
    end.
Proof. unfold ContinueCache.Set_. now destruct (cache c !! rv). Qed.

Lemma runEvent_sound st ev : System.sound st -> System.sound (System.runEvent st ev).
Proof.
  intros (Hok & Hlive & Hsnaps). unfold System.sound.
  destruct ev as [m|rv|rv]; cbn [System.runEvent].
  - destruct (step_mutate (System.memory st) (System.live st) m)
      as [Hheap Hstore].
    destruct (Client.step (System.memory st, System.live st) m) as [h si].
    simpl in *. subst h. rewrite Hstore.
    split; [exact Hok|]. split; [now apply mutate_allocated|].
    intros r snapshot Hr. destruct (Hsnaps r snapshot Hr) as [Halloc Hne].
    split; [now apply mutate_allocated|exact Hne].
  - pose proof (Set_ok (System.snapshots st) rv (System.live st) (System.memory st) Hok)
      as Hok'.
    rewrite Set_live_spec in *.
    destruct (cache (System.snapshots st) !! rv) eqn:Hrv; simpl in *;
      [split; [exact Hok|split; [exact Hlive|exact Hsnaps]]|].
    split; [exact Hok'|]. split.
    + apply lookup_insert_is_Some. right. split; [|exact Hlive].
      now apply fresh_not_allocated.
    + intros r snapshot. rewrite lookup_insert. case_decide.
      * intros [= <-]. simpl. split; [rewrite lookup_insert_eq; eauto|].
        now apply fresh_not_allocated.
      * intros Hr. destruct (Hsnaps r snapshot Hr) as [Halloc Hne].
        split; [|exact Hne]. apply lookup_insert_is_Some. right.
        split; [|exact Halloc]. now apply fresh_not_allocated.
  - simpl. split; [now apply Cleanup_ok|]. split; [exact Hlive|].
    intros r snapshot. rewrite Cleanup_lookup by assumption.
    destruct (rv <? r)%N; [apply Hsnaps|discriminate].
Qed.

Lemma boot_sound ixs degree (h0 : heap) : System.sound (System.boot ixs degree h0).
Proof.
  unfold System.boot, newThreadedBtreeStoreIndexer, newBtreeStore, alloc. simpl.
  split; [apply newContinueCache_ok|]. split.
  - simpl. rewrite lookup_insert_eq. eauto.
  - simpl. intros r snapshot. rewrite lookup_empty. discriminate.
Qed.

Lemma run_sound evs : forall st,
  System.sound st -> System.sound (foldl System.runEvent st evs).
Proof.
  induction evs as [|ev evs IH]; intros st Hst; [exact Hst|].
  cbn [foldl]. apply IH. now apply runEvent_sound.
Qed.

(** one event leaves a cached snapshot in the cache and its tree alone,
    unless it forgets the revision *)
Lemma runEvent_keeps st ev rv snapshot :
  System.sound st ->
  cache (System.snapshots st) !! rv = Some snapshot ->
  match ev with System.Forget r => (r < rv)%N | _ => True end ->
  cache (System.snapshots (System.runEvent st ev)) !! rv = Some snapshot
  /\ load (System.memory (System.runEvent st ev)) (tree snapshot)
     = load (System.memory st) (tree snapshot).
Proof.
  intros (Hok & Hlive & Hsnaps) Hrv Hev.
  destruct (Hsnaps rv snapshot Hrv) as [Halloc Hne].
  destruct ev as [m|r|r]; cbn [System.runEvent].
  - destruct (step_mutate (System.memory st) (System.live st) m)
      as [Hheap _].
    destruct (Client.step (System.memory st, System.live st) m) as [h si].
    simpl in *. subst h. split; [exact Hrv|].
    unfold load. now rewrite mutate_frame.
  - rewrite Set_live_spec.
    destruct (cache (System.snapshots st) !! r) eqn:Hr; simpl; [now split|].
    split.
    + rewrite lookup_insert_ne; [exact Hrv|]. intros <-. congruence.
    + apply load_insert_ne. now apply fresh_not_allocated.
  - simpl. split; [|reflexivity]. rewrite Cleanup_lookup by assumption.
    apply N.ltb_lt in Hev. now rewrite Hev.
Qed.

Lemma run_keeps evs rv snapshot : forall st,
  System.sound st ->
  cache (System.snapshots st) !! rv = Some snapshot ->
  System.keeps rv evs ->
  cache (System.snapshots (foldl System.runEvent st evs)) !! rv = Some snapshot
  /\ load (System.memory (foldl System.runEvent st evs)) (tree snapshot)
     = load (System.memory st) (tree snapshot).
Proof.
  induction evs as [|ev evs IH]; intros st Hst Hrv Hkeeps; [now split|].
  apply Forall_cons in Hkeeps as [Hev Hkeeps]. cbn [foldl].
  destruct (runEvent_keeps st ev rv snapshot Hst Hrv Hev) as [Hrv' Hload'].
  destruct (IH (System.runEvent st ev)) as [Hrv'' Hload'']; auto using runEvent_sound.
  split; [exact Hrv''|]. now rewrite Hload''.
Qed.

End SystemFacts.

(** X15: however mutations of the live facade, snapshots and cleanups are
    interleaved from a fresh start, the continuation cache stays in order:
    its ordered set of revisions is strictly ascending and holds exactly the
    revisions that have a snapshot in the map, so the two have the same
    size; the live store and every cached snapshot have a tree, and no
    cached snapshot shares the tree of the live store. *)
Theorem system_stays_sound (ixs : gmap string IndexFunc) (degree : Z) (h0 : heap)
    (evs : list System.event) :
  let st := foldl System.runEvent (System.boot ixs degree h0) evs in
  System.sound st
  /\ Len (revisions (System.snapshots st)) = size (cache (System.snapshots st)).
Proof.
  intros st.
  assert (Hsound : System.sound st) by apply run_sound, boot_sound.
  split; [exact Hsound|]. destruct Hsound as ([Hwf Hdom] & _).
  unfold Len. rewrite <- (size_dom (cache (System.snapshots st))).
  assert (Hnodup : NoDup (revisions (System.snapshots st))).
  { clear Hdom. induction (revisions (System.snapshots st)) as [|r revs IH];
      [constructor|].
    apply wf_cons in Hwf as [Hwf Hall]. constructor; [|auto].
    intros Hin. rewrite Forall_forall in Hall. specialize (Hall r Hin).
    unfold Less, rev_Less in Hall. apply N.ltb_lt in Hall. lia. }
  rewrite <- (size_list_to_set (C := gset N) (revisions (System.snapshots st)) Hnodup).
  f_equal. apply set_eq. intros r.
  rewrite elem_of_list_to_set, elem_of_dom. apply Hdom.
Qed.

(** X16: take a snapshot of the live facade at a revision that is not
    cached yet.  Whatever follows, mutations of the live facade, other
    snapshots, cleanups below that revision, [FindEqualOrLower] of the
    revision returns a snapshot with that revision and [true], and every
    read through it answers as the live store did when the snapshot was
    taken. *)
Theorem snapshot_survives (ixs : gmap string IndexFunc) (degree : Z) (h0 : heap)
    (before after : list System.event) (rv : N) (q : Client.query) :
  let st1 := foldl System.runEvent (System.boot ixs degree h0) before in
  let st2 := foldl System.runEvent (System.runEvent st1 (System.Snapshot rv)) after in
  cache (System.snapshots st1) !! rv = None ->
  System.keeps rv after ->
  exists snapshot,
    ContinueCache.FindEqualOrLower (System.snapshots st2) rv = (Some snapshot, rv, true)
    /\ Client.ask snapshot q (System.memory st2)
       = Client.ask (store (System.live st1)) q (System.memory st1).
Proof.
  intros st1 st2 Hfree Hkeeps.
  assert (Hsound1 : System.sound st1) by apply run_sound, boot_sound.
  pose proof (runEvent_sound st1 (System.Snapshot rv) Hsound1) as Hsound.
  set (snapshot := {| tree := fresh (dom (System.memory st1)) |}).
  assert (Htaken : cache (System.snapshots (System.runEvent st1 (System.Snapshot rv))) !! rv
                   = Some snapshot
                   /\ load (System.memory (System.runEvent st1 (System.Snapshot rv)))
                        (tree snapshot)
                      = load (System.memory st1) (tree (store (System.live st1)))).
  { simpl. rewrite Set_live_spec, Hfree. simpl.
    split; [apply lookup_insert_eq|apply load_insert_eq]. }
  destruct Htaken as [Hrv Hload].
  destruct (run_keeps after rv snapshot _ Hsound Hrv Hkeeps) as [Hrv2 Hload2].
  fold st2 in Hrv2, Hload2.
  exists snapshot. split.
  - unfold ContinueCache.FindEqualOrLower. now rewrite Hrv2.
  - apply ask_load. now rewrite Hload2.
Qed.

Lemma snapshot_survives_witness :
  exists snapshot,
    ContinueCache.FindEqualOrLower
      (System.snapshots
         (foldl System.runEvent
            (System.runEvent
               (foldl System.runEvent (System.boot Examples.namespaceIndexers 32 ∅)
                  [System.Mutate (Client.Add (elemAny Examples.a1))])
               (System.Snapshot 7))
            [System.Mutate (Client.Delete (elemAny Examples.a1)); System.Snapshot 9;
             System.Forget 6])) 7
    = (Some snapshot, 7%N, true)
    /\ Client.ask snapshot Client.ListKeys
         (System.memory
            (foldl System.runEvent
               (System.runEvent
                  (foldl System.runEvent (System.boot Examples.namespaceIndexers 32 ∅)
                     [System.Mutate (Client.Add (elemAny Examples.a1))])
                  (System.Snapshot 7))
               [System.Mutate (Client.Delete (elemAny Examples.a1)); System.Snapshot 9;
                System.Forget 6]))
       = Client.ask
           (store (System.live
                     (foldl System.runEvent (System.boot Examples.namespaceIndexers 32 ∅)
                        [System.Mutate (Client.Add (elemAny Examples.a1))])))
           Client.ListKeys
           (System.memory
              (foldl System.runEvent (System.boot Examples.namespaceIndexers 32 ∅)
                 [System.Mutate (Client.Add (elemAny Examples.a1))])).
Proof.
  apply (snapshot_survives Examples.namespaceIndexers 32 ∅
           [System.Mutate (Client.Add (elemAny Examples.a1))]
           [System.Mutate (Client.Delete (elemAny Examples.a1)); System.Snapshot 9;
            System.Forget 6] 7 Client.ListKeys).
  - reflexivity.
  - repeat constructor.
Defined.

(** ** Replace puts store and index back in step *)

Lemma accepted_all (objs : list any) :
  Forall (fun obj => is_Some (asElem obj)) objs -> System.accepted objs = objs.
Proof.
  induction 1 as [|obj objs [e He] _ IH]; [reflexivity|].
  destruct obj; try discriminate. unfold System.accepted in *. simpl. now rewrite IH.
Qed.

(** X17: whatever state the facade is in, in step or not, a [Replace] with
    elements only and no key twice (and index functions that never fail)
    returns nil and leaves the store holding exactly the given elements and
    every registered index filing exactly those. *)
Theorem Replace_resynchronises (h : heap) (si : threadedStoreIndexer)
    (objs : list any) (rv : string) :
  neverFails (indexers (indexer_ si)) -> distinctElements objs ->
  let h' := fst (fst (Facade.Replace si objs rv h)) in
  let si' := snd (fst (Facade.Replace si objs rv h)) in
  snd (Facade.Replace si objs rv h) = None
  /\ facade_ok (indexers (indexer_ si)) h' si'
  /\ (forall e, e ∈ Facade.List si' h' <-> elemAny e ∈ objs).
Proof.
  intros Hnf Hobjs. cbv zeta.
  destruct (Replace_loops_ok (indexers (indexer_ si)) (store si) Hnf objs
              (<[tree (store si) := Clear (load h (tree (store si)))]> h)
              {| indices := ∅; indexers := indexers (indexer_ si) |} Hobjs)
    as (h' & i' & Hs & Hi & Hok').
  { split; [reflexivity|]. simpl. rewrite load_insert_eq. split; [apply wf_nil|].
    intros name f Hname value key p. simpl.
    rewrite List_load, load_insert_eq. unfold lookup2. rewrite lookup_empty. simpl.
    rewrite lookup_empty. simpl. split; [discriminate|].
    intros (e & _ & Hin & _). inversion Hin. }
  { intros e e0 _ Hin. simpl in Hin. rewrite load_insert_eq in Hin. inversion Hin. }
  assert (Hrun : Facade.Replace si objs rv h
                 = (h', {| store := store si; indexer_ := i' |}, None)).
  { unfold Facade.Replace, Store.Replace, Indexer.Replace. now rewrite Hs, Hi. }
  rewrite Hrun. simpl. split; [reflexivity|]. split; [exact Hok'|].
  intros e. unfold Facade.List. simpl.
  destruct Hok' as (_ & Hwf' & _). simpl in Hwf'.
  destruct Hobjs as [Helems Hkeys].
  assert (Hh' : h' = fst (Store.Replace (store si) objs rv h))
    by (unfold Store.Replace; now rewrite Hs).
  pose proof (fun key => Replace_GetByKey_eq (store si) h objs rv key) as Hget.
  rewrite <- Hh', accepted_all in Hget by assumption.
  assert (Hlast : forall key x, System.lastByKey objs key = Some x
                                <-> elemAny x ∈ objs /\ Key x = key).
  { clear -Helems Hkeys. induction objs as [|obj objs IH]; intros key x.
    - simpl. split; [discriminate|]. intros [Hin _]. inversion Hin.
    - apply Forall_cons in Helems as [[e0 He0] Helems].
      destruct obj as [|e1|]; try discriminate. injection He0 as ->.
      simpl in Hkeys. apply NoDup_cons in Hkeys as [Hfresh Hkeys].
      specialize (IH Helems Hkeys). simpl. rewrite elem_of_cons.
      destruct (System.lastByKey objs key) as [y|] eqn:Hy.
      + pose proof Hy as Hy'. apply IH in Hy' as [Hyin Hyk]. split.
        * intros [= <-]. auto.
        * intros [[[= ->]|Hin] Hk].
          -- exfalso. apply Hfresh. rewrite Hk, <- Hyk.
             now apply elem_key_in_keys.
          -- assert (Hsome : System.lastByKey objs key = Some x) by (apply IH; auto).
             congruence.
      + destruct (String.eqb_spec (Key e0) key) as [Hk|Hk]; split.
        * intros [= <-]. auto.
        * intros [[[= ->]|Hin] Hkx]; [reflexivity|].
          assert (Hsome : System.lastByKey objs key = Some x) by (apply IH; auto).
          congruence.
        * discriminate.
        * intros [[[= ->]|Hin] Hkx]; [contradiction|].
          assert (Hsome : System.lastByKey objs key = Some x) by (apply IH; auto).
          congruence. }
  rewrite List_load. split.
  - intros Hin.
    assert (Hx : btree.Get (load h' (tree (store si))) {| Key := Key e; Object := None |}
                 = Some e) by (apply Get_by_key; auto).
    specialize (Hget (Key e)). rewrite GetByKey_load in Hget.
    injection Hget as Hget _. rewrite Hx in Hget. symmetry in Hget.
    now apply Hlast in Hget as [? _].
  - intros Hin.
    assert (Hsome : System.lastByKey objs (Key e) = Some e) by (apply Hlast; auto).
    specialize (Hget (Key e)). rewrite GetByKey_load in Hget.
    injection Hget as Hget _. rewrite Hsome in Hget.
    apply Get_by_key in Hget as [? _]; assumption.
Qed.

Lemma Replace_resynchronises_witness :
  snd (Facade.Replace
         (snd (fst (Facade.Replace (snd Examples.indexed) [elemAny Examples.v1; nilAny] ""
                      (fst Examples.indexed))))
         [elemAny Examples.b1; elemAny Examples.a2] ""
         (fst (fst (Facade.Replace (snd Examples.indexed) [elemAny Examples.v1; nilAny] ""
                      (fst Examples.indexed)))))
  = None.
Proof.
  apply (Replace_resynchronises
           (fst (fst (Facade.Replace (snd Examples.indexed) [elemAny Examples.v1; nilAny] ""
                        (fst Examples.indexed))))
           (snd (fst (Facade.Replace (snd Examples.indexed) [elemAny Examples.v1; nilAny] ""
                        (fst Examples.indexed))))
           [elemAny Examples.b1; elemAny Examples.a2] "").
  - exact namespaceIndexers_neverFails.
  - split; [repeat constructor; eauto|].
    apply (bool_decide_unpack _). vm_compute. exact I.
Defined.
